(** * Ai-Cli: the extractive summarizer and the MCQ quiz builder

    A shallow embedding of [ai_cli/utils.py], [ai_cli/summarizer.py],
    [ai_cli/quiz_generator.py] and of the quiz entry of [ai_cli/main.py],
    followed by the properties of the specification.

    Conventions of the embedding.
    - A Python [str] is a [list ascii].  The character classes used by the
      regular expressions ([\s], [\w]) and by [str.lower], [str.strip] and
      [str.split] are those of Python on code points below 128.
    - Python sets and dicts are stdpp [gset] and [gmap].
    - [random] is a tape of draws consumed by [randbelow].
    - The only unbounded loop of the program, the [while] of
      [_build_distractors], is run on fuel. *)

From Stdlib Require Import Ascii String DecimalString.
From stdpp Require Import base decidable option list gmap strings sorting.

Local Open Scope Z_scope.
Local Open Scope nat_scope.

(** ** Strings *)

Abbreviation str := (list ascii).

(** String literals of the Python source. *)
Definition lit (s : string) : str := list_ascii_of_string s.

Definition code (c : ascii) : N := N_of_ascii c.

(** Python's [str.isspace] on ASCII, which is also the class [\s] of [re]
    on [str] patterns: TAB, LF, VT, FF, CR, FS, GS, RS, US and SPACE. *)
Definition is_space (c : ascii) : bool :=
  let n := code c in
  ((9 <=? n) && (n <=? 13) || (28 <=? n) && (n <=? 31) || (n =? 32))%N.

Definition is_upper (c : ascii) : bool :=
  let n := code c in ((65 <=? n) && (n <=? 90))%N.

Definition is_lower (c : ascii) : bool :=
  let n := code c in ((97 <=? n) && (n <=? 122))%N.

Definition is_digit (c : ascii) : bool :=
  let n := code c in ((48 <=? n) && (n <=? 57))%N.

(** The class [\w] of [re]: letters, digits and the underscore. *)
Definition is_word (c : ascii) : bool :=
  is_upper c || is_lower c || is_digit c || (code c =? 95)%N.

(** The class [[.!?]] of the sentence splitter. *)
Definition is_terminator (c : ascii) : bool :=
  let n := code c in ((n =? 46) || (n =? 33) || (n =? 63))%N.

Definition lower_char (c : ascii) : ascii :=
  if is_upper c then ascii_of_N (code c + 32) else c.

(** [str.lower] *)
Definition lower (s : str) : str := map lower_char s.

Definition space : ascii := " "%char.

(** [sep.join(parts)] *)
Fixpoint join (sep : str) (parts : list str) : str :=
  match parts with
  | [] => []
  | [p] => p
  | p :: ps => p ++ sep ++ join sep ps
  end.

(** [str(n)] for a non-negative integer. *)
Definition str_of_nat (n : nat) : str :=
  lit (NilZero.string_of_uint (Nat.to_uint n)).

(** [l[:n]] for a Python integer [n]: a negative bound counts from the end. *)
Definition slice_to {A} (n : Z) (l : list A) : list A :=
  if decide (0 ≤ n)%Z then take (Z.to_nat n) l
  else take (length l - Z.to_nat (- n)) l.

(** ** utils.py *)

Module Utils.

(** The [STOPWORDS] set. *)
Definition STOPWORDS : gset str :=
  list_to_set (lit <$>
    [ "a"; "an"; "and"; "are"; "as"; "at"; "be"; "by"; "for"; "from";
      "has"; "have"; "he"; "her"; "his"; "i"; "in"; "is"; "it"; "its";
      "of"; "on"; "or"; "that"; "the"; "their"; "there"; "they"; "this";
      "to"; "was"; "were"; "will"; "with"; "you"; "your" ]%string).

(** [re.sub(r"\s+", " ", text)]: every maximal run of whitespace becomes one
    space.  [in_run] tells that the previous character belonged to the run
    being replaced. *)
Fixpoint sub_ws (in_run : bool) (text : str) : str :=
  match text with
  | [] => []
  | c :: rest =>
      if is_space c then
        if in_run then sub_ws true rest else space :: sub_ws true rest
      else c :: sub_ws false rest
  end.

(** [str.lstrip], [str.rstrip] and [str.strip] without argument. *)
Fixpoint lstrip (s : str) : str :=
  match s with
  | [] => []
  | c :: rest => if is_space c then lstrip rest else s
  end.

Fixpoint rstrip (s : str) : str :=
  match s with
  | [] => []
  | c :: rest =>
      match rstrip rest with
      | [] => if is_space c then [] else [c]
      | kept => c :: kept
      end
  end.

Definition strip (s : str) : str := rstrip (lstrip s).

(** [normalize_whitespace] ([text or ""] is the identity on a [str]). *)
Definition normalize_whitespace (text : str) : str :=
  strip (sub_ws false text).

(** Adds [c] in front of the fragment being read. *)
Definition push (c : ascii) (parts : list str) : list str :=
  match parts with
  | [] => [[c]]
  | p :: ps => (c :: p) :: ps
  end.

(** [re.split(r"(?<=[.!?])\s+", text)].  A match starts at a whitespace
    character whose predecessor is a terminator and extends over the whole
    whitespace run.  [after_term] tells that the previous character is a
    terminator, [in_match] that the previous character was consumed by a
    match.  The head of the result is the fragment being read. *)
Fixpoint re_split (after_term in_match : bool) (text : str) : list str :=
  match text with
  | [] => [[]]
  | c :: rest =>
      if is_space c then
        if in_match then re_split false true rest
        else if after_term then [] :: re_split false true rest
        else push c (re_split false false rest)
      else push c (re_split (is_terminator c) false rest)
  end.

(** A Python string is truthy when it is not empty. *)
Definition truthy (s : str) : bool :=
  match s with [] => false | _ => true end.

(** [split_sentences] *)
Definition split_sentences (text : str) : list str :=
  let text := normalize_whitespace text in
  if truthy text then
    let parts := re_split false false text in
    omap (λ p, if truthy (strip p) then Some (strip p) else None) parts
  else [].

(** Maximal runs of characters of a class: [re.findall(r"\w+", s)] for the
    class [\w], and [s.split()] for the complement of [\s]. *)
Fixpoint runs (P : ascii → bool) (s : str) : list str :=
  match s with
  | [] => []
  | c :: rest =>
      if P c then
        match rest with
        | c' :: _ => if P c' then push c (runs P rest) else [c] :: runs P rest
        | [] => [[c]]
        end
      else runs P rest
  end.

Definition findall_word (s : str) : list str := runs is_word s.

Definition split_ws (s : str) : list str := runs (λ c, negb (is_space c)) s.

(** [token in STOPWORDS or len(token) <= 2] *)
Definition skipped (token : str) : bool :=
  bool_decide (token ∈ STOPWORDS) || bool_decide (length token ≤ 2).

(** The inner loop of [_build_word_frequencies] over the tokens of one
    sentence. *)
Fixpoint count_tokens (tokens : list str) (freqs : gmap str nat) : gmap str nat :=
  match tokens with
  | [] => freqs
  | token :: rest =>
      if skipped token then count_tokens rest freqs
      else count_tokens rest (<[token := default 0 (freqs !! token) + 1]> freqs)
  end.

(** The outer loop of [_build_word_frequencies]. *)
Fixpoint count_sentences (sentences : list str) (freqs : gmap str nat) : gmap str nat :=
  match sentences with
  | [] => freqs
  | sentence :: rest =>
      count_sentences rest (count_tokens (findall_word (lower sentence)) freqs)
  end.

Definition _build_word_frequencies (sentences : list str) : gmap str nat :=
  count_sentences sentences ∅.

(** A scored sentence [(score, idx, sentence)]. *)
Record scored := Scored { score : nat; idx : nat; sentence : str }.

(** [sum(freqs.get(tok, 0) for tok in tokens)] *)
Definition score_of (freqs : gmap str nat) (sentence : str) : nat :=
  foldr (λ tok acc, default 0 (freqs !! tok) + acc) 0
        (findall_word (lower sentence)).

(** The [for idx, sentence in enumerate(sentences)] loop, from index [i]. *)
Fixpoint score_from (freqs : gmap str nat) (i : nat) (sentences : list str) : list scored :=
  match sentences with
  | [] => []
  | s :: rest => Scored (score_of freqs s) i s :: score_from freqs (S i) rest
  end.

(** Python's sort is stable, and a stable sort has one possible result: the
    one of insertion from the right with the element put before the first
    entry it may precede.  [before a b] is the sort's order, [key a <= key b]
    or, with [reverse=True], [key b <= key a]. *)
Section Sort.
Context {A : Type} (before : A → A → bool).

Fixpoint insert_by (x : A) (l : list A) : list A :=
  match l with
  | [] => [x]
  | y :: l' => if before x y then x :: l else y :: insert_by x l'
  end.

Fixpoint sort_by (l : list A) : list A :=
  match l with
  | [] => []
  | x :: l' => insert_by x (sort_by l')
  end.
End Sort.

(** [scored_sentences.sort(key=lambda x: x[0], reverse=True)] *)
Definition sort_by_score_desc : list scored → list scored :=
  sort_by (λ a b, score b <=? score a).

(** [sorted(..., key=lambda x: x[1])] *)
Definition sort_by_idx : list scored → list scored :=
  sort_by (λ a b, idx a <=? idx b).

(** The value of [top] on the scored path of [summarize_text]. *)
Definition select_top (freqs : gmap str nat) (sentences : list str) (max_sentences : Z)
  : list scored :=
  let scored_sentences := score_from freqs 0 sentences in
  let scored_sentences := sort_by_score_desc scored_sentences in
  sort_by_idx (slice_to max_sentences scored_sentences).

(** [summarize_text] *)
Definition summarize_text (text : str) (max_sentences : Z) : str :=
  let text := normalize_whitespace text in
  let sentences := split_sentences text in
  match sentences with
  | [] => []
  | _ =>
      if decide (Z.of_nat (length sentences) ≤ max_sentences)%Z then
        join [space] sentences
      else
        let freqs := _build_word_frequencies sentences in
        if decide (freqs = ∅) then
          join [space] (slice_to max_sentences sentences)
        else
          join [space] (sentence <$> select_top freqs sentences max_sentences)
  end.

End Utils.

(** ** The random source

    [random.choice] and [random.shuffle] draw from the generator through
    [_randbelow(n)], which returns a number below [n].  The generator is a
    tape of draws: every sequence of results of the real generator is the
    one of some tape. *)

Module Random.

Abbreviation tape := (list nat).

Definition randbelow (n : nat) (t : tape) : nat * tape :=
  match t with
  | [] => (0, [])
  | x :: t' => (x mod n, t')
  end.

(** [x[i], x[j] = x[j], x[i]] *)
Definition swap {A} (i j : nat) (x : list A) : list A :=
  match x !! i, x !! j with
  | Some a, Some b => <[j := a]> (<[i := b]> x)
  | _, _ => x
  end.

(** [for i in reversed(range(1, len(x))): j = randbelow(i + 1); swap],
    from index [i] downwards. *)
Fixpoint shuffle_from {A} (i : nat) (x : list A) (t : tape) : list A * tape :=
  match i with
  | 0 => (x, t)
  | S i' =>
      let '(j, t') := randbelow (S i) t in
      shuffle_from i' (swap i j x) t'
  end.

(** [random.shuffle(x)], returning the list it leaves in [x]. *)
Definition shuffle {A} (x : list A) (t : tape) : list A * tape :=
  shuffle_from (length x - 1) x t.

End Random.

(** ** Results of effectful code *)

Inductive exn :=
  | ValueError (msg : str)
  | IndexError (msg : str)
  | FileNotFoundError (msg : str)
  | ReaderError (msg : str).

(** A call returns, raises, or is still running when the fuel is spent. *)
Inductive outcome (A : Type) :=
  | Return (a : A)
  | Raise (e : exn)
  | OutOfFuel.
Arguments Return {A} a.
Arguments Raise {A} e.
Arguments OutOfFuel {A}.

(** Computations that draw from the random source. *)
Definition M (A : Type) : Type := Random.tape → outcome (A * Random.tape).

Definition ret {A} (a : A) : M A := λ t, Return (a, t).

Definition bind {A B} (m : M A) (f : A → M B) : M B :=
  λ t, match m t with
       | Return (a, t') => f a t'
       | Raise e => Raise e
       | OutOfFuel => OutOfFuel
       end.

Definition raise {A} (e : exn) : M A := λ _, Raise e.

Definition out_of_fuel {A} : M A := λ _, OutOfFuel.

Notation "'let*' x ':=' m 'in' k" := (bind m (λ x, k))
  (at level 10, x name, m at level 100, k at level 200).

(** [random.choice(seq)] *)
Definition choice {A} (seq : list A) : M A :=
  λ t, match seq with
       | [] => Raise (IndexError (lit "Cannot choose from an empty sequence"))
       | _ =>
           let '(i, t') := Random.randbelow (length seq) t in
           match seq !! i with
           | Some x => Return (x, t')
           | None => Raise (IndexError (lit "list index out of range"))
           end
       end.

(** [random.shuffle(x)] *)
Definition shuffle {A} (x : list A) : M (list A) :=
  λ t, Return (Random.shuffle x t).

(** ** quiz_generator.py *)

Module Quiz.
Import Utils.

Record MCQ := mkMCQ {
  question : str;
  options : list str;
  answer_index : nat
}.

(** [_select_answer_word]: [None] when the sentence has no candidate. *)
Definition candidate (used_answers : gset str) (t : str) : bool :=
  bool_decide (3 < length t)
  && bool_decide (lower t ∉ STOPWORDS)
  && bool_decide (lower t ∉ used_answers).

Definition _select_answer_word (sentence : str) (used_answers : gset str)
  : M (option str) :=
  let tokens := findall_word sentence in
  let candidates := filter (λ t, candidate used_answers t = true) tokens in
  match candidates with
  | [] => ret None
  | _ => let* a := choice candidates in ret (Some a)
  end.

(** The assertion [\b] between two neighbours, [None] past either end. *)
Definition boundary (prev next : option ascii) : bool :=
  xorb (from_option is_word false prev) (from_option is_word false next).

(** The escaped answer as a literal under [re.IGNORECASE]: the text left
    after the match, when the pattern matches at the head of [s]. *)
Fixpoint match_literal (pat s : str) : option str :=
  match pat, s with
  | [], _ => Some s
  | p :: pat', c :: s' =>
      if decide (lower_char p = lower_char c) then match_literal pat' s' else None
  | _ :: _, [] => None
  end.

(** [\b<answer>\b] at the head of [s], [prev] being the character before. *)
Definition match_at (answer : str) (prev : option ascii) (s : str) : option str :=
  if boundary prev (head s) then
    match match_literal answer s with
    | Some rest =>
        let before_end :=
          match last (take (length answer) s) with
          | Some c => Some c
          | None => prev
          end in
        if boundary before_end (head rest) then Some rest else None
    | None => None
    end
  else None.

Definition BLANK : str := lit "____".

(** [pattern.sub("____", sentence, count=1)]: the leftmost match is
    replaced. *)
Fixpoint sub_first (answer : str) (prev : option ascii) (s : str) : str :=
  match match_at answer prev s with
  | Some rest => BLANK ++ rest
  | None =>
      match s with
      | [] => []
      | c :: s' => c :: sub_first answer (Some c) s'
      end
  end.

Definition _build_question (sentence answer : str) : str :=
  sub_first answer None sentence.

(** The [for token in vocabulary] loop of [_build_distractors], with its
    [break]. *)
Fixpoint scan_vocabulary (k : nat) (vocabulary : list str)
    (distractors : list str) (seen : gset str) : list str * gset str :=
  match vocabulary with
  | [] => (distractors, seen)
  | token :: rest =>
      let token_lower := lower token in
      if bool_decide (token_lower ∈ seen) then
        scan_vocabulary k rest distractors seen
      else if bool_decide (length token ≤ 3) || bool_decide (token_lower ∈ STOPWORDS) then
        scan_vocabulary k rest distractors seen
      else
        let distractors := distractors ++ [token] in
        let seen := {[token_lower]} ∪ seen in
        if bool_decide (k ≤ length distractors) then (distractors, seen)
        else scan_vocabulary k rest distractors seen
  end.

(** The [while len(distractors) < k] loop of [_build_distractors]; one unit
    of fuel per iteration. *)
Fixpoint synthesize (fuel : nat) (answer : str) (k : nat)
    (distractors : list str) (seen : gset str) : option (list str) :=
  if bool_decide (length distractors < k) then
    match fuel with
    | 0 => None
    | S fuel' =>
        let synthetic := take 3 answer ++ str_of_nat (length distractors + 1) in
        if bool_decide (lower synthetic ∉ seen) then
          synthesize fuel' answer k (distractors ++ [synthetic])
                     ({[lower synthetic]} ∪ seen)
        else synthesize fuel' answer k distractors seen
    end
  else Some distractors.

(** [_build_distractors]: [None] when the fuel is spent in the loop. *)
Definition _build_distractors (fuel : nat) (answer : str) (vocabulary : list str)
    (k : nat) : option (list str) :=
  let answer_lower := lower answer in
  let '(distractors, seen) := scan_vocabulary k vocabulary [] {[answer_lower]} in
  distractors ← synthesize fuel answer k distractors seen;
  Some (take k distractors).

Definition run_distractors (r : option (list str)) : M (list str) :=
  match r with
  | Some d => ret d
  | None => out_of_fuel
  end.

(** [options.index(answer)] *)
Definition index (x : str) (l : list str) : M nat :=
  match list_find (λ o, o = x) l with
  | Some (i, _) => ret i
  | None => raise (ValueError (lit "x is not in list"))
  end.

(** The vocabulary loop of [generate_mcqs_from_text]. *)
Fixpoint build_vocabulary (vocab_tokens : list str) (seen : gset str)
    (vocab_unique : list str) : list str :=
  match vocab_tokens with
  | [] => vocab_unique
  | token :: rest =>
      let token_lower := lower token in
      if bool_decide (token_lower ∈ seen)
         || bool_decide (token_lower ∈ STOPWORDS)
         || bool_decide (length token_lower ≤ 3)
      then build_vocabulary rest seen vocab_unique
      else build_vocabulary rest ({[token_lower]} ∪ seen) (vocab_unique ++ [token])
  end.

(** [not answer] for the optional answer word. *)
Definition no_answer (answer : option str) : bool :=
  match answer with
  | None => true
  | Some a => negb (truthy a)
  end.

(** The [for sentence in sentences] loop of [generate_mcqs_from_text]. *)
Fixpoint mcq_loop (fuel : nat) (vocab_unique : list str) (num_questions : Z)
    (sentences : list str) (mcqs : list MCQ) (used_answers : gset str)
  : M (list MCQ) :=
  match sentences with
  | [] => ret mcqs
  | sentence :: rest =>
      if decide (num_questions ≤ Z.of_nat (length mcqs))%Z then ret mcqs
      else
        let* answer := _select_answer_word sentence used_answers in
        match answer with
        | Some answer =>
            if truthy answer then
              let question := _build_question sentence answer in
              if decide (question = sentence) then
                mcq_loop fuel vocab_unique num_questions rest mcqs used_answers
              else
                let* distractors := run_distractors (_build_distractors fuel answer vocab_unique 3) in
                let* options := shuffle (distractors ++ [answer]) in
                let* answer_index := index answer options in
                mcq_loop fuel vocab_unique num_questions rest
                         (mcqs ++ [mkMCQ question options answer_index])
                         ({[lower answer]} ∪ used_answers)
            else mcq_loop fuel vocab_unique num_questions rest mcqs used_answers
        | None => mcq_loop fuel vocab_unique num_questions rest mcqs used_answers
        end
  end.

(** The sentences kept by [len(s.split()) >= 5]. *)
Definition eligible (text : str) : list str :=
  filter (λ s, 5 ≤ length (split_ws s)) (split_sentences text).

(** [generate_mcqs_from_text] *)
Definition generate_mcqs_from_text (fuel : nat) (text : str) (num_questions : Z)
  : M (list MCQ) :=
  let text := normalize_whitespace text in
  let sentences := eligible text in
  match sentences with
  | [] => ret []
  | _ =>
      let vocab_tokens := findall_word text in
      let vocab_unique := build_vocabulary vocab_tokens ∅ [] in
      mcq_loop fuel vocab_unique num_questions sentences [] ∅
  end.

End Quiz.

(** ** File loading, summarizer.py and the quiz command of main.py *)

Module Files.
Import Utils Quiz.

(** The file system the loaders see: [os.path.exists], the decoded content
    of a text file, and the text [pypdf] extracts from each page of a PDF
    file (or the error it raises). *)
Record world := World {
  path_exists : str → bool;
  read_text : str → str;
  pdf_page_texts : str → exn + list str
}.

(** What a call did to the file system, in order. *)
Inductive event :=
  | Exists (path : str)
  | OpenText (path : str)
  | OpenPdf (path : str).

(** A result and the events that led to it. *)
Definition IO (A : Type) : Type := (outcome A * list event)%type.

(** [p.rfind(c)]: the last index of [c], or -1. *)
Definition rfind (c : ascii) (p : str) : Z :=
  match list_find (λ x, x = c) (reverse p) with
  | Some (i, _) => Z.of_nat (length p - 1 - i)
  | None => -1
  end.

(** [os.path.splitext] (POSIX): the extension starts at the last dot of the
    last component, unless only dots precede it there. *)
Definition splitext (p : str) : str * str :=
  let sepIndex := rfind "/"%char p in
  let dotIndex := rfind "."%char p in
  if decide (sepIndex < dotIndex)%Z then
    let filenameIndex := Z.to_nat (sepIndex + 1) in
    let leading := take (Z.to_nat dotIndex - filenameIndex) (drop filenameIndex p) in
    if forallb (λ c, bool_decide (c = "."%char)) leading then (p, [])
    else (take (Z.to_nat dotIndex) p, drop (Z.to_nat dotIndex) p)
  else (p, []).

Definition read_text_file (w : world) (path : str) : IO str :=
  if path_exists w path then (Return (read_text w path), [Exists path; OpenText path])
  else (Raise (FileNotFoundError (lit "File not found: " ++ path)), [Exists path]).

Definition read_pdf_file (w : world) (path : str) : IO str :=
  if path_exists w path then
    match pdf_page_texts w path with
    | inr texts => (Return (join (lit (String "010"%char EmptyString)) texts),
                    [Exists path; OpenPdf path])
    | inl e => (Raise e, [Exists path; OpenPdf path])
    end
  else (Raise (FileNotFoundError (lit "File not found: " ++ path)), [Exists path]).

Definition load_text_from_path (w : world) (path : str) : IO str :=
  let ext := lower (snd (splitext path)) in
  if decide (ext = lit ".txt") then read_text_file w path
  else if decide (ext = lit ".pdf") then read_pdf_file w path
  else (Raise (ValueError (lit "Unsupported file type: " ++ ext
                           ++ lit ". Expected .txt or .pdf.")), []).

Definition SUMMARY_SENTENCE_MAP : gmap str Z :=
  {[ lit "short" := 3%Z; lit "medium" := 7%Z; lit "long" := 12%Z ]}.

(** [summarize_file] *)
Definition summarize_file (w : world) (path length : str) : IO str :=
  match SUMMARY_SENTENCE_MAP !! length with
  | None => (Raise (ValueError (lit "Unsupported summary length: " ++ length)), [])
  | Some max_sentences =>
      match load_text_from_path w path with
      | (Return text, evs) => (Return (summarize_text text max_sentences), evs)
      | (Raise e, evs) => (Raise e, evs)
      | (OutOfFuel, evs) => (OutOfFuel, evs)
      end
  end.

(** [generate_mcqs_from_file] *)
Definition generate_mcqs_from_file (w : world) (fuel : nat) (path : str)
    (num_questions : Z) (t : Random.tape) : IO (list MCQ * Random.tape) :=
  match load_text_from_path w path with
  | (Return text, evs) => (generate_mcqs_from_text fuel text num_questions t, evs)
  | (Raise e, evs) => (Raise e, evs)
  | (OutOfFuel, evs) => (OutOfFuel, evs)
  end.

(** The [choices] of the [--count] option of the [quiz] command. *)
Definition COUNT_CHOICES : list Z := [5; 10; 20]%Z.

(** [handle_quiz]: the exit status. *)
Definition handle_quiz (w : world) (fuel : nat) (path : str) (count : Z)
    (t : Random.tape) : IO nat :=
  match generate_mcqs_from_file w fuel path count t with
  | (Return (mcqs, _), evs) => (Return (match mcqs with [] => 1 | _ => 0 end), evs)
  | (Raise _, evs) => (Return 1, evs)
  | (OutOfFuel, evs) => (OutOfFuel, evs)
  end.

(** The [quiz] command of [main] on a parsed integer [count]: [argparse]
    refuses a value outside [choices] with exit status 2 before the handler
    is called. *)
Definition main_quiz (w : world) (fuel : nat) (path : str) (count : Z)
    (t : Random.tape) : IO nat :=
  if bool_decide (count ∈ COUNT_CHOICES) then handle_quiz w fuel path count t
  else (Return 2, []).

End Files.

Import Utils Quiz Files.

(** * Notions used by the properties *)

(** ** Words and sentences *)

Abbreviation unwords := (join [space]).

(** A word: a non-empty string without whitespace. *)
Definition word (w : str) : Prop := w ≠ [] ∧ Forall (λ c, is_space c = false) w.

(** The word ends a sentence. *)
Definition ends_term (w : str) : bool := from_option is_terminator false (last w).

(** The words of a normalized text, cut after every word that ends a
    sentence. *)
Fixpoint chunks (ws : list str) : list (list str) :=
  match ws with
  | [] => []
  | w :: ws' =>
      if ends_term w then [w] :: chunks ws'
      else match chunks ws' with
           | [] => [[w]]
           | g :: gs => (w :: g) :: gs
           end
  end.

Definition open_words (pre : list str) : Prop :=
  Forall (λ w, ends_term w = false) pre.

(** Groups as [chunks] makes them: no word but the last of a group ends a
    sentence, and the last word of every group but the last does. *)
Inductive well_chunked : list (list str) → Prop :=
  | wc_nil : well_chunked []
  | wc_cons pre w gs :
      open_words pre → (gs ≠ [] → ends_term w = true) → well_chunked gs →
      well_chunked ((pre ++ [w]) :: gs).

Definition prepend (w : str) (parts : list str) : list str :=
  match parts with
  | [] => [w]
  | p :: ps => (w ++ p) :: ps
  end.

(** ** Ranking of the scored sentences *)

(** The order of the result of a stable sort by [before] whose input is
    ordered by [T]: by the sort's order, and by [T] among entries of equal
    rank. *)
Definition stable_order {A} (before : A → A → bool) (T : relation A) : relation A :=
  λ a b, before a b = true ∧ (before b a = true → T a b).

Definition by_idx : relation scored := λ a b, idx a < idx b.

(** The order in which the scored sentences are ranked: by descending
    score, and by ascending index among equal scores. *)
Definition ranks_before (a b : scored) : Prop :=
  score b < score a ∨ (score a = score b ∧ idx a < idx b).

(** ** Questions *)

(** The state of [_build_distractors]: the answer and the distractors differ
    pairwise up to case, and [seen] holds all of them in lower case. *)
Definition fresh_inv (answer : str) (distractors : list str) (seen : gset str) : Prop :=
  NoDup (lower answer :: (lower <$> distractors))
  ∧ ∀ x, x ∈ lower answer :: (lower <$> distractors) → x ∈ seen.

(** The correct answer of a question: the option its index points at. *)
Definition answer_of (m : MCQ) : str := default [] (options m !! answer_index m).

(** Four options, no two of them equal up to case, and a valid index. *)
Definition well_formed (m : MCQ) : Prop :=
  length (options m) = 4 ∧ answer_index m < 4 ∧ NoDup (lower <$> options m).

(** [m] was built from one of the sentences: its question blanks an
    eligible word of the sentence, its options are that word and three
    distractors in some order, and its index points at that word. *)
Definition made_from (sentences : list str) (m : MCQ) : Prop :=
  ∃ sentence answer distractors,
    sentence ∈ sentences
    ∧ answer ∈ findall_word sentence
    ∧ 3 < length answer
    ∧ (lower answer ∉ STOPWORDS)
    ∧ question m = _build_question sentence answer
    ∧ length distractors = 3
    ∧ options m ≡ₚ distractors ++ [answer]
    ∧ options m !! answer_index m = Some answer.

(** What the loop adds to [mcqs], started with the set [used] of answers. *)
Definition loop_post (k : Z) (sentences : list str) (mcqs : list MCQ)
    (used : gset str) (res : list MCQ) : Prop :=
  ∃ new,
    res = mcqs ++ new
    ∧ length new ≤ length sentences
    ∧ ((Z.of_nat (length mcqs) ≤ k)%Z → (Z.of_nat (length res) ≤ k)%Z)
    ∧ Forall (λ m, well_formed m ∧ made_from sentences m
                   ∧ lower (answer_of m) ∉ used) new
    ∧ NoDup (lower ∘ answer_of <$> new).

(** One of the digits that [_build_distractors] appends to a synthetic
    distractor. *)
Definition is_123 (c : ascii) : bool :=
  let n := code c in ((n =? 49) || (n =? 50) || (n =? 51))%N.

(** A string without the digits 1, 2 and 3. *)
Definition clean (s : str) : Prop := Forall (λ c, is_123 c = false) s.

(** No word of [seen] is a synthetic distractor still to be built. *)
Definition no_collision (answer : str) (d : list str) (seen : gset str) : Prop :=
  ∀ x j, x ∈ seen → length d < j ≤ 3 →
         x ≠ lower (take 3 answer ++ str_of_nat j).

(** ** Arguments and sample inputs *)

Definition SUPPORTED_LENGTHS : list str := [lit "short"; lit "medium"; lit "long"].

(** A run of the generator on the text of the repository's test. *)
Definition sample_text : str := lit
  "Python is a popular programming language used in many domains. Developers rely on Python for data science, automation, and web development. The language emphasizes readability and rapid prototyping.".

Definition sample_tape : Random.tape := [3; 1; 4; 1; 5; 9; 2; 6; 5; 3; 5].

Definition sample_mcqs : list MCQ :=
  Eval vm_compute in
    match generate_mcqs_from_text 3 sample_text 5 sample_tape with
    | Return (mcqs, _) => mcqs
    | _ => []
    end.

Definition sample_mcq : MCQ :=
  Eval vm_compute in default (mkMCQ [] [] 0) (head sample_mcqs).

Definition sample_world : world :=
  World (λ _, true) (λ _, sample_text) (λ _, inr []).

(** ** Counting tokens *)

(** The number of occurrences of [w] in [l]. *)
Definition occurrences (w : str) (l : list str) : nat :=
  length (filter (λ x, x = w) l).

(** The tokens of all sentences, as [_build_word_frequencies] reads them. *)
Definition all_tokens (sentences : list str) : list str :=
  concat ((λ s, findall_word (lower s)) <$> sentences).

(** ** The summarize command of main.py *)

Module Cli.
Import Utils Files.




End Cli.

Import Cli.


(** A file system in which every path is missing. *)
Definition empty_world : world :=
  World (λ _, false) (λ _, []) (λ _, inr []).

(** ** Distractors and vocabulary *)

(** A token that may serve as distractor or enter the vocabulary: more than
    three characters and no stopword. *)
Definition content_word (v : str) : Prop := 3 < length v ∧ lower v ∉ STOPWORDS.

(** A synthetic distractor for [answer]: its first three characters and one
    of the numbers 1, 2 and 3. *)
Definition synthetic_for (answer x : str) : Prop :=
  ∃ j, 1 ≤ j ≤ 3 ∧ x = take 3 answer ++ str_of_nat j.

(** [m] is a sentence of [sentences] with one factor, equal to the correct
    answer up to case, replaced by the blank. *)
Definition blanks_answer (sentences : list str) (m : MCQ) : Prop :=
  ∃ sentence answer pre w post,
    sentence ∈ sentences
    ∧ options m !! answer_index m = Some answer
    ∧ sentence = pre ++ w ++ post
    ∧ lower w = lower answer
    ∧ question m = pre ++ BLANK ++ post
    ∧ question m ≠ sentence.

(** The line feed that joins the pages of a PDF file. *)
Definition newline : ascii := "010"%char.


(** A PDF file with the given page texts, the empty string for a page
    without text, at every path. *)
Definition pdf_world (pages : list str) : world :=
  World (λ _, true) (λ _, []) (λ _, inr pages).

(** * Properties *)

(** ** Words of a text *)

Lemma join_cons sep p q ps :
  join sep (p :: q :: ps) = p ++ sep ++ join sep (q :: ps).
Proof. reflexivity. Qed.

Lemma unwords_push c w ws : unwords ((c :: w) :: ws) = c :: unwords (w :: ws).
Proof. destruct ws; reflexivity. Qed.

Lemma unwords_nonempty w ws : w ≠ [] → unwords (w :: ws) ≠ [].
Proof. destruct ws, w; simpl; congruence. Qed.

Section Runs.
Context (P : ascii → bool).

Lemma runs_nonempty s : Forall (λ w, w ≠ []) (runs P s).
Proof.
  induction s as [|c rest IH]; simpl; [constructor|].
  destruct (P c); [|exact IH].
  destruct rest as [|c' rest']; [repeat constructor; congruence|].
  destruct (P c').
  - destruct (runs P (c' :: rest')) as [|w ws]; simpl.
    + repeat constructor; congruence.
    + inversion IH; subst. constructor; [congruence|assumption].
  - constructor; [congruence|exact IH].
Qed.

Lemma runs_cons c rest :
  runs P (c :: rest) =
    if P c then
      match rest with
      | c' :: _ => if P c' then push c (runs P rest) else [c] :: runs P rest
      | [] => [[c]]
      end
    else runs P rest.
Proof. reflexivity. Qed.

Lemma runs_head_nonnil c rest : P c = true → runs P (c :: rest) ≠ [].
Proof.
  intros Hc. rewrite runs_cons, Hc. destruct rest as [|c' rest']; [done|].
  destruct (P c'); [|done]. destruct (runs P (c' :: rest')); done.
Qed.

Lemma runs_all s : Forall (Forall (λ c, P c = true)) (runs P s).
Proof.
  induction s as [|c rest IH]; simpl; [constructor|].
  destruct (P c) eqn:Hc; [|exact IH].
  destruct rest as [|c' rest']; [repeat constructor; assumption|].
  destruct (P c').
  - destruct (runs P (c' :: rest')) as [|w ws]; simpl.
    + repeat constructor; assumption.
    + inversion IH; subst. constructor; [constructor|]; assumption.
  - constructor; [repeat constructor; assumption|exact IH].
Qed.

(** A run followed by a character outside the class, or by nothing. *)
Lemma runs_app w rest :
  w ≠ [] → Forall (λ c, P c = true) w →
  from_option P false (head rest) = false →
  runs P (w ++ rest) = w :: runs P rest.
Proof.
  induction w as [|c w IH]; [congruence|]. intros _ Hw Hrest.
  inversion Hw as [|? ? Hc Hw']; subst.
  destruct w as [|c' w'].
  - simpl. rewrite Hc. destruct rest as [|r rest']; [reflexivity|].
    simpl in Hrest. rewrite Hrest. reflexivity.
  - change ((c :: c' :: w') ++ rest) with (c :: (c' :: w') ++ rest).
    cbn [runs]. rewrite Hc. cbn [app].
    inversion Hw' as [|? ? Hc' _]; subst. rewrite Hc'.
    change (c' :: w' ++ rest) with ((c' :: w') ++ rest).
    rewrite IH by (congruence || assumption). reflexivity.
Qed.

Lemma runs_skip c rest : P c = false → runs P (c :: rest) = runs P rest.
Proof. intros H. simpl. rewrite H. reflexivity. Qed.
End Runs.

Lemma split_ws_words s : Forall word (split_ws s).
Proof.
  unfold split_ws.
  pose proof (runs_nonempty (λ c, negb (is_space c)) s) as H1.
  pose proof (runs_all (λ c, negb (is_space c)) s) as H2.
  revert H1 H2. generalize (runs (λ c, negb (is_space c)) s). intros l H1 H2.
  induction l as [|w l IH]; [constructor|].
  inversion H1; inversion H2; subst. constructor; [|auto].
  split; [assumption|]. eapply Forall_impl; [eassumption|].
  intros c Hc. simpl in Hc. destruct (is_space c); [discriminate|reflexivity].
Qed.

Lemma word_non_space w : word w → Forall (λ c, negb (is_space c) = true) w.
Proof.
  intros [_ H]. eapply Forall_impl; [exact H|]. intros c Hc. simpl. rewrite Hc. reflexivity.
Qed.

(** [split_ws] undoes [unwords] on words. *)
Lemma split_ws_unwords ws : Forall word ws → split_ws (unwords ws) = ws.
Proof.
  induction ws as [|w ws IH]; [reflexivity|]. intros Hws.
  inversion Hws as [|? ? Hw Hws']; subst.
  destruct ws as [|w' ws'].
  - simpl. rewrite <- (app_nil_r w) at 1. unfold split_ws.
    rewrite runs_app; [reflexivity|apply Hw|apply word_non_space, Hw|reflexivity].
  - rewrite join_cons. unfold split_ws.
    rewrite runs_app; [|apply Hw|apply word_non_space, Hw|reflexivity].
    change ([space] ++ unwords (w' :: ws')) with (space :: unwords (w' :: ws')).
    rewrite runs_skip by reflexivity.
    f_equal. apply IH, Hws'.
Qed.

Lemma is_space_space : is_space space = true.
Proof. reflexivity. Qed.

Lemma lstrip_sub_ws b t : lstrip (sub_ws b t) = sub_ws false (lstrip t).
Proof.
  revert b. induction t as [|c rest IH]; intros b; [reflexivity|].
  simpl. destruct (is_space c) eqn:Hc.
  - destruct b; [apply IH|]. simpl. apply IH.
  - simpl. rewrite Hc. reflexivity.
Qed.

Lemma rstrip_cons_non_space c s : is_space c = false → rstrip (c :: s) = c :: rstrip s.
Proof. intros Hc. simpl. rewrite Hc. destruct (rstrip s); reflexivity. Qed.

Lemma split_ws_lstrip t : split_ws (lstrip t) = split_ws t.
Proof.
  induction t as [|c rest IH]; [reflexivity|].
  simpl. destruct (is_space c) eqn:Hc; [|reflexivity].
  rewrite IH. unfold split_ws. rewrite runs_skip; [reflexivity|]. rewrite Hc. reflexivity.
Qed.

(** [re.sub] then [rstrip], in terms of the words of the text. *)
Lemma rstrip_sub_ws b t :
  rstrip (sub_ws b t) =
    match split_ws t with
    | [] => []
    | ws => (if from_option is_space false (head t) && negb b then [space] else [])
            ++ unwords ws
    end.
Proof.
  revert b. induction t as [|c rest IH]; intros b; [reflexivity|].
  cbn [sub_ws head from_option]. destruct (is_space c) eqn:Hc.
  - unfold split_ws. rewrite runs_skip by (rewrite Hc; reflexivity).
    fold (split_ws rest). destruct b.
    + rewrite IH. destruct (split_ws rest); [reflexivity|].
      rewrite andb_false_r. reflexivity.
    + cbn [rstrip]. rewrite IH, andb_false_r.
      pose proof (split_ws_words rest) as Hw.
      destruct (split_ws rest) as [|w ws]; [reflexivity|].
      inversion Hw as [|? ? [Hne _] _]; subst.
      pose proof (unwords_nonempty w ws Hne) as Hn.
      cbn [andb negb app]. revert Hn. generalize (unwords (w :: ws)).
      intros u Hu. destruct u; done.
  - rewrite rstrip_cons_non_space by assumption. rewrite IH.
    cbn [andb app]. unfold split_ws. cbn [runs]. rewrite Hc. cbn [negb].
    destruct rest as [|c' rest']; [reflexivity|].
    cbn [head from_option]. destruct (is_space c') eqn:Hc'; cbn [negb andb].
    + fold (split_ws (c' :: rest')).
      destruct (split_ws (c' :: rest')); reflexivity.
    + fold (split_ws (c' :: rest')).
      assert (Hn : split_ws (c' :: rest') ≠ [])
        by (apply runs_head_nonnil; rewrite Hc'; reflexivity).
      destruct (split_ws (c' :: rest')) as [|w ws]; [done|].
      cbn [push app]. rewrite unwords_push. reflexivity.
Qed.

(** [normalize_whitespace] joins the words of the text by single spaces. *)
Lemma normalize_whitespace_words t :
  normalize_whitespace t = unwords (split_ws t).
Proof.
  unfold normalize_whitespace, strip.
  rewrite lstrip_sub_ws, rstrip_sub_ws, split_ws_lstrip.
  destruct (split_ws t) as [|w ws] eqn:Hws; [reflexivity|].
  replace (from_option is_space false (head (lstrip t))) with false; [reflexivity|].
  clear. induction t as [|c rest IH]; [reflexivity|].
  simpl. destruct (is_space c) eqn:Hc; [exact IH|]. simpl. rewrite Hc. reflexivity.
Qed.

Lemma normalize_whitespace_idem t :
  normalize_whitespace (normalize_whitespace t) = normalize_whitespace t.
Proof.
  rewrite !normalize_whitespace_words.
  rewrite split_ws_unwords by apply split_ws_words. reflexivity.
Qed.

Lemma split_sentences_normalize t :
  split_sentences (normalize_whitespace t) = split_sentences t.
Proof. unfold split_sentences. rewrite normalize_whitespace_idem. reflexivity. Qed.

(** ** Sorting *)

Section SortFacts.
Context {A : Type} (before : A → A → bool).
Hypothesis before_total : ∀ a b, before a b = true ∨ before b a = true.
Hypothesis before_trans :
  ∀ a b c, before a b = true → before b c = true → before a c = true.

Lemma insert_by_perm x l : insert_by before x l ≡ₚ x :: l.
Proof.
  induction l as [|y l IH]; simpl; [done|].
  destruct (before x y); [done|]. rewrite IH. constructor.
Qed.

Lemma sort_by_perm l : sort_by before l ≡ₚ l.
Proof.
  induction l as [|x l IH]; simpl; [done|].
  rewrite insert_by_perm, IH. done.
Qed.

Lemma insert_by_stable T x l :
  StronglySorted (stable_order before T) l → Forall (T x) l →
  StronglySorted (stable_order before T) (insert_by before x l).
Proof.
  induction l as [|y l IH]; intros Hs HT; simpl.
  - repeat constructor.
  - apply StronglySorted_cons in Hs as [Hy Hs].
    apply Forall_cons in HT as [HTy HT].
    destruct (before x y) eqn:Hxy.
    + constructor; [constructor; assumption|].
      constructor; [split; [assumption|auto]|].
      rewrite Forall_forall in Hy, HT |- *. intros z Hz. split; [|auto].
      eapply before_trans; [exact Hxy|]. apply Hy, Hz.
    + constructor; [auto|].
      rewrite insert_by_perm. constructor; [|assumption].
      split; [|congruence].
      destruct (before_total x y); congruence.
Qed.

Lemma sort_by_stable T l :
  StronglySorted T l → StronglySorted (stable_order before T) (sort_by before l).
Proof.
  induction l as [|x l IH]; intros Hs; simpl; [constructor|].
  apply StronglySorted_cons in Hs as [Hx Hs].
  apply insert_by_stable; [auto|]. rewrite sort_by_perm. assumption.
Qed.

Lemma sort_by_sorted l :
  StronglySorted (λ a b, before a b = true) (sort_by before l).
Proof.
  assert (Hs : StronglySorted (λ _ _ : A, True) l).
  { induction l; constructor; [assumption|]. apply Forall_forall. done. }
  apply (sort_by_stable _ _) in Hs.
  induction Hs as [|x l' Hs IH Hx]; constructor; [assumption|].
  eapply Forall_impl; [exact Hx|]. intros y [Hy _]. exact Hy.
Qed.
End SortFacts.

(** A list in strictly increasing order whose entries come from another
    such list is a subsequence of it. *)
Lemma sorted_sublist {A} (R : relation A) (Y L : list A) :
  Irreflexive R → Transitive R →
  StronglySorted R L → StronglySorted R Y → Y ⊆ L → sublist Y L.
Proof.
  intros Hirr Htr HL. revert Y.
  induction HL as [|x L HL IH Hx]; intros Y HY Hsub.
  - destruct Y as [|y Y]; [constructor|].
    exfalso. specialize (Hsub y). rewrite elem_of_nil in Hsub. apply Hsub. left.
  - destruct Y as [|y Y]; [apply sublist_nil_l|].
    apply StronglySorted_cons in HY as [Hy HY].
    rewrite Forall_forall in Hx, Hy.
    assert (Hin : y ∈ x :: L) by (apply Hsub; left).
    apply elem_of_cons in Hin as [->|Hin].
    + apply sublist_skip, IH; [assumption|].
      intros z Hz. assert (Hz' : z ∈ x :: L) by (apply Hsub; right; assumption).
      apply elem_of_cons in Hz' as [->|Hz']; [|assumption].
      exfalso. apply (Hirr x), Hy, Hz.
    + apply sublist_cons, IH; [constructor; [assumption|apply Forall_forall, Hy]|].
      intros z Hz. assert (Hz' : z ∈ x :: L) by (apply Hsub, Hz).
      apply elem_of_cons in Hz' as [->|Hz']; [|assumption].
      exfalso. apply elem_of_cons in Hz as [Hz|Hz].
      * subst. apply (Hirr y), Hx, Hin.
      * apply (Hirr x). etrans; [apply Hx, Hin|apply Hy, Hz].
Qed.

Lemma slice_to_nonneg {A} (n : Z) (l : list A) :
  (0 ≤ n)%Z → slice_to n l = take (Z.to_nat n) l.
Proof. intros H. unfold slice_to. rewrite decide_True by assumption. reflexivity. Qed.

Lemma slice_to_take {A} (n : Z) (l : list A) : ∃ k, slice_to n l = take k l.
Proof. unfold slice_to. destruct (decide (0 ≤ n)%Z); eauto. Qed.

Lemma slice_to_length {A} (n : Z) (l : list A) :
  (0 ≤ n)%Z → (n < Z.of_nat (length l))%Z → length (slice_to n l) = Z.to_nat n.
Proof. intros H1 H2. rewrite slice_to_nonneg, length_take by assumption. lia. Qed.

(** ** The scored sentences *)

Lemma score_from_sentences freqs i ss : sentence <$> score_from freqs i ss = ss.
Proof. revert i. induction ss as [|s ss IH]; intros i; simpl; [done|]. by rewrite IH. Qed.

Lemma score_from_length freqs i ss : length (score_from freqs i ss) = length ss.
Proof. revert i. induction ss as [|s ss IH]; intros i; simpl; [done|]. by rewrite IH. Qed.

Lemma score_from_elem freqs i ss x :
  x ∈ score_from freqs i ss →
  i ≤ idx x ∧ ss !! (idx x - i) = Some (sentence x) ∧ score x = score_of freqs (sentence x).
Proof.
  revert i. induction ss as [|s ss IH]; intros i; simpl.
  - intros H. apply elem_of_nil in H. done.
  - intros [->|H]%elem_of_cons.
    + simpl. rewrite Nat.sub_diag. done.
    + apply IH in H as (H1 & H2 & H3). split; [lia|]. split; [|done].
      replace (idx x - i) with (S (idx x - S i)) by lia. exact H2.
Qed.

Lemma score_from_sorted freqs i ss : StronglySorted by_idx (score_from freqs i ss).
Proof.
  revert i. induction ss as [|s ss IH]; intros i; simpl; constructor; [apply IH|].
  apply Forall_forall. intros x Hx. apply score_from_elem in Hx as [Hx _].
  unfold by_idx. simpl. lia.
Qed.

#[local] Instance by_idx_irreflexive : Irreflexive by_idx.
Proof. intros a H. unfold by_idx in H. lia. Qed.

#[local] Instance by_idx_transitive : Transitive by_idx.
Proof. intros a b c. unfold by_idx. lia. Qed.

Lemma desc_total (a b : scored) :
  (score b <=? score a) = true ∨ (score a <=? score b) = true.
Proof. rewrite !Nat.leb_le. lia. Qed.

Lemma desc_trans (a b c : scored) :
  (score b <=? score a) = true → (score c <=? score b) = true →
  (score c <=? score a) = true.
Proof. rewrite !Nat.leb_le. lia. Qed.

Lemma asc_total (a b : scored) :
  (idx a <=? idx b) = true ∨ (idx b <=? idx a) = true.
Proof. rewrite !Nat.leb_le. lia. Qed.

Lemma asc_trans (a b c : scored) :
  (idx a <=? idx b) = true → (idx b <=? idx c) = true → (idx a <=? idx c) = true.
Proof. rewrite !Nat.leb_le. lia. Qed.

(** A list ordered by index without two entries of one index is strictly
    ordered. *)
Lemma sorted_le_strict (l : list scored) :
  StronglySorted (λ a b, (idx a <=? idx b) = true) l → NoDup (idx <$> l) →
  StronglySorted by_idx l.
Proof.
  induction 1 as [|x l Hs IH Hx]; intros Hnd; [constructor|].
  simpl in Hnd. apply NoDup_cons in Hnd as [Hnin Hnd].
  constructor; [auto|]. rewrite Forall_forall in Hx |- *.
  intros y Hy. specialize (Hx y Hy). apply Nat.leb_le in Hx.
  unfold by_idx. assert (idx y ≠ idx x); [|lia].
  intros Heq. apply Hnin. rewrite <- Heq. apply list_elem_of_fmap. eauto.
Qed.

Lemma sorted_strict_nodup (l : list scored) :
  StronglySorted by_idx l → NoDup (idx <$> l).
Proof.
  induction 1 as [|x l Hs IH Hx]; simpl; constructor; [|assumption].
  intros (y & Heq & Hy)%list_elem_of_fmap. rewrite Forall_forall in Hx.
  specialize (Hx y Hy). unfold by_idx in Hx. lia.
Qed.

(** The entries of [top] are a subsequence of the scored sentences. *)
Lemma select_top_sublist freqs ss n :
  sublist (select_top freqs ss n) (score_from freqs 0 ss).
Proof.
  unfold select_top, sort_by_idx, sort_by_score_desc.
  set (L := score_from freqs 0 ss).
  set (D := sort_by _ L).
  destruct (slice_to_take n D) as [k ->].
  assert (HDL : D ≡ₚ L) by apply sort_by_perm.
  assert (Hsub : sublist (take k D) D) by apply sublist_take.
  assert (Hnd : NoDup (idx <$> take k D)).
  { eapply sublist_NoDup; [|apply (fmap_sublist idx), Hsub].
    rewrite HDL. apply sorted_strict_nodup, score_from_sorted. }
  apply (sorted_sublist by_idx); try apply _.
  - apply score_from_sorted.
  - apply sorted_le_strict.
    + apply (sort_by_sorted _ asc_total asc_trans).
    + rewrite sort_by_perm. exact Hnd.
  - intros x Hx. rewrite sort_by_perm in Hx.
    rewrite <- HDL. apply (sublist_subseteq _ _ Hsub), Hx.
Qed.

Lemma StronglySorted_impl {A} (R1 R2 : relation A) (l : list A) :
  (∀ x y, R1 x y → R2 x y) → StronglySorted R1 l → StronglySorted R2 l.
Proof.
  intros HR. induction 1 as [|x l Hs IH Hx]; constructor; [assumption|].
  eapply Forall_impl; [exact Hx|]. auto.
Qed.

Lemma StronglySorted_sublist {A} (R : relation A) (l k : list A) :
  sublist l k → StronglySorted R k → StronglySorted R l.
Proof.
  induction 1 as [|x l k Hlk IH|x l k Hlk IH]; intros Hs; [constructor| |].
  - apply StronglySorted_cons in Hs as [Hx Hs]. constructor; [auto|].
    rewrite Forall_forall in Hx |- *. intros y Hy.
    apply Hx, (sublist_subseteq _ _ Hlk), Hy.
  - apply StronglySorted_cons in Hs as [_ Hs]. auto.
Qed.

(** The entries of a prefix sit at the indices 0, 1, 2, ... *)
Lemma take_indexed {A} (l : list A) k :
  Forall2 (λ i s, l !! i = Some s) (seq 0 (length (take k l))) (take k l).
Proof.
  apply Forall2_same_length_lookup_2; [by rewrite length_seq|].
  intros i j s [-> Hi]%lookup_seq [Hs _]%lookup_take_Some. exact Hs.
Qed.

Lemma seq_sorted i n : StronglySorted lt (seq i n).
Proof.
  revert i. induction n as [|n IH]; intros i; simpl; constructor; [apply IH|].
  apply Forall_forall. intros j Hj%elem_of_seq. lia.
Qed.

(** ** The word-frequency table *)

Lemma count_tokens_nonempty tokens freqs :
  freqs ≠ ∅ → count_tokens tokens freqs ≠ ∅.
Proof.
  revert freqs. induction tokens as [|t tokens IH]; intros freqs H; simpl; [done|].
  destruct (skipped t); apply IH; [done|]. apply insert_non_empty.
Qed.

Lemma count_tokens_empty tokens :
  count_tokens tokens ∅ = ∅ ↔ Forall (λ t, skipped t = true) tokens.
Proof.
  induction tokens as [|t tokens IH]; simpl; [split; [constructor|done]|].
  destruct (skipped t) eqn:Ht.
  - rewrite IH. split; [by constructor|]. by inversion 1.
  - split.
    + intros H. exfalso. revert H. apply count_tokens_nonempty, insert_non_empty.
    + inversion 1; congruence.
Qed.

Lemma count_sentences_nonempty ss freqs :
  freqs ≠ ∅ → count_sentences ss freqs ≠ ∅.
Proof.
  revert freqs. induction ss as [|s ss IH]; intros freqs H; simpl; [done|].
  apply IH, count_tokens_nonempty, H.
Qed.

(** The table is empty exactly when every token of every sentence is
    filtered out. *)
Lemma word_frequencies_empty ss :
  _build_word_frequencies ss = ∅ ↔
  Forall (λ s, Forall (λ t, skipped t = true) (findall_word (lower s))) ss.
Proof.
  unfold _build_word_frequencies.
  induction ss as [|s ss IH]; simpl; [split; [constructor|done]|].
  destruct (decide (count_tokens (findall_word (lower s)) ∅ = ∅)) as [He|Hne].
  - rewrite He, IH. apply count_tokens_empty in He.
    split; [by constructor|]. by inversion 1.
  - split.
    + intros H. exfalso. revert H. apply count_sentences_nonempty, Hne.
    + inversion 1 as [|? ? Hs _]; subst. apply count_tokens_empty in Hs. done.
Qed.

(** ** The summarizer *)

Lemma summarize_text_unfold text n :
  summarize_text text n =
    let sentences := split_sentences text in
    match sentences with
    | [] => []
    | _ =>
        if decide (Z.of_nat (length sentences) ≤ n)%Z then unwords sentences
        else
          let freqs := _build_word_frequencies sentences in
          if decide (freqs = ∅) then unwords (slice_to n sentences)
          else unwords (sentence <$> select_top freqs sentences n)
    end.
Proof. unfold summarize_text. rewrite split_sentences_normalize. reflexivity. Qed.

Lemma summarize_text_fallback text n :
  (n < Z.of_nat (length (split_sentences text)))%Z →
  _build_word_frequencies (split_sentences text) = ∅ →
  summarize_text text n = unwords (slice_to n (split_sentences text)).
Proof.
  intros Hlen He. rewrite summarize_text_unfold. cbv zeta.
  destruct (split_sentences text) as [|s ss].
  { unfold slice_to. destruct (decide (0 ≤ n)%Z); by rewrite take_nil. }
  rewrite decide_False by lia. rewrite decide_True by exact He. reflexivity.
Qed.

Lemma summarize_text_scored text n :
  (n < Z.of_nat (length (split_sentences text)))%Z →
  _build_word_frequencies (split_sentences text) ≠ ∅ →
  summarize_text text n =
    unwords (sentence <$> select_top (_build_word_frequencies (split_sentences text))
                            (split_sentences text) n).
Proof.
  intros Hlen Hne. rewrite summarize_text_unfold. cbv zeta.
  destruct (split_sentences text) as [|s ss]; [done|].
  rewrite decide_False by lia. rewrite decide_False by exact Hne. reflexivity.
Qed.

(** Every path of [summarize_text] joins a subsequence of the sentences. *)
Lemma summarize_text_selection text n :
  ∃ sel, summarize_text text n = unwords sel
         ∧ sublist sel (split_sentences text)
         ∧ ((0 ≤ n)%Z → (Z.of_nat (length sel) ≤ n)%Z).
Proof.
  rewrite summarize_text_unfold. cbv zeta.
  destruct (split_sentences text) as [|s ss] eqn:Hss.
  { exists []. split; [done|]. split; [done|]. simpl. lia. }
  rewrite <- Hss. clear s ss Hss. set (ss := split_sentences text).
  destruct (decide (Z.of_nat (length ss) ≤ n)%Z) as [Hle|Hgt].
  { exists ss. done. }
  destruct (decide (_build_word_frequencies ss = ∅)) as [He|Hne].
  - exists (slice_to n ss). split; [done|]. split.
    + destruct (slice_to_take n ss) as [k ->]. apply sublist_take.
    + intros Hn. rewrite slice_to_length by lia. lia.
  - exists (sentence <$> select_top (_build_word_frequencies ss) ss n).
    split; [done|]. split.
    + pose proof (fmap_sublist sentence _ _
        (select_top_sublist (_build_word_frequencies ss) ss n)) as H.
      rewrite score_from_sentences in H. exact H.
    + intros Hn. rewrite length_fmap. unfold select_top, sort_by_idx.
      rewrite sort_by_perm, slice_to_length; [lia|lia|].
      unfold sort_by_score_desc. rewrite sort_by_perm, score_from_length. lia.
Qed.

(** C1. When the text has at most [max_sentences] sentences,
    [summarize_text] returns exactly these sentences, in their original
    order, joined by single spaces: the result does not depend on any
    score. *)
Theorem summarize_identity_path (text : str) (max_sentences : Z) :
  (1 ≤ max_sentences)%Z →
  (Z.of_nat (length (split_sentences text)) ≤ max_sentences)%Z →
  summarize_text text max_sentences = join [space] (split_sentences text).
Proof.
  intros _ Hle. rewrite summarize_text_unfold. cbv zeta.
  destruct (split_sentences text) as [|s ss] eqn:Hss; [reflexivity|].
  rewrite decide_True by exact Hle. reflexivity.
Qed.

Lemma summarize_identity_path_witness :
  summarize_text (lit "One two. Three!") 5
  = join [space] (split_sentences (lit "One two. Three!")).
Proof. apply summarize_identity_path; [lia|by vm_compute]. Defined.

(** C2. On every path the output of [summarize_text] is the join of
    sentences taken at strictly increasing (hence non-decreasing) indices of
    the segmented text. *)
Theorem summarize_document_order (text : str) (max_sentences : Z) :
  ∃ (idxs : list nat) (sel : list str),
    summarize_text text max_sentences = join [space] sel
    ∧ Forall2 (λ i s, split_sentences text !! i = Some s) idxs sel
    ∧ StronglySorted lt idxs
    ∧ StronglySorted le idxs.
Proof.
  assert (Hle : ∀ l, StronglySorted lt l → StronglySorted le l).
  { intros l. apply StronglySorted_impl. intros; lia. }
  enough (∃ idxs sel,
    summarize_text text max_sentences = unwords sel
    ∧ Forall2 (λ i s, split_sentences text !! i = Some s) idxs sel
    ∧ StronglySorted lt idxs) as (idxs & sel & H1 & H2 & H3)
    by (exists idxs, sel; auto).
  rewrite summarize_text_unfold. cbv zeta.
  destruct (split_sentences text) as [|s ss] eqn:Hss.
  { exists [], []. repeat split; constructor. }
  rewrite <- Hss. clear s ss Hss. set (ss := split_sentences text).
  destruct (decide (Z.of_nat (length ss) ≤ max_sentences)%Z) as [Hl|Hgt].
  { exists (seq 0 (length ss)), ss. split; [done|]. split; [|apply seq_sorted].
    pose proof (take_indexed ss (length ss)) as H.
    rewrite firstn_all in H. exact H. }
  destruct (decide (_build_word_frequencies ss = ∅)) as [He|Hne].
  - destruct (slice_to_take max_sentences ss) as [k ->].
    exists (seq 0 (length (take k ss))), (take k ss).
    split; [done|]. split; [apply take_indexed|apply seq_sorted].
  - set (freqs := _build_word_frequencies ss).
    pose proof (select_top_sublist freqs ss max_sentences) as Hsub.
    exists (idx <$> select_top freqs ss max_sentences),
           (sentence <$> select_top freqs ss max_sentences).
    split; [done|]. split.
    + apply Forall2_fmap, Forall_Forall2_diag, Forall_forall.
      intros x Hx. apply (sublist_subseteq _ _ Hsub) in Hx.
      apply score_from_elem in Hx as (_ & Hx & _).
      rewrite Nat.sub_0_r in Hx. exact Hx.
    + apply (StronglySorted_fmap _ by_idx); [done|].
      eapply StronglySorted_sublist; [exact Hsub|apply score_from_sorted].
Qed.

Lemma sort_by_score_desc_ranked freqs ss :
  StronglySorted ranks_before (sort_by_score_desc (score_from freqs 0 ss)).
Proof.
  pose proof (sort_by_stable (λ a b, score b <=? score a) desc_total desc_trans
                by_idx _ (score_from_sorted freqs 0 ss)) as H.
  unfold sort_by_score_desc. revert H.
  generalize (sort_by (λ a b, score b <=? score a) (score_from freqs 0 ss)).
  intros l. apply StronglySorted_impl. intros x y [H1 H2].
  unfold ranks_before, by_idx in *.
  apply Nat.leb_le in H1. rewrite Nat.leb_le in H2.
  destruct (decide (score x ≤ score y)); [right|left; lia].
  split; [lia|auto].
Qed.

(** C3. On the scored path (more sentences than [max_sentences], non-empty
    frequency table) the selected entries are [max_sentences] of the scored
    sentences, and each of them ranks before each of the entries left out:
    its score is higher, or the scores are equal and its index is lower.
    Each entry carries its sentence, its index in the text and the sum of
    the frequencies of its tokens. *)
Theorem summarize_selects_top_scores (text : str) (max_sentences : Z) :
  let sentences := split_sentences text in
  let freqs := _build_word_frequencies sentences in
  let scored_sentences := score_from freqs 0 sentences in
  let top := select_top freqs sentences max_sentences in
  (1 ≤ max_sentences)%Z →
  (max_sentences < Z.of_nat (length sentences))%Z →
  freqs ≠ ∅ →
  summarize_text text max_sentences = join [space] (sentence <$> top)
  ∧ Z.of_nat (length top) = max_sentences
  ∧ (∀ x, x ∈ scored_sentences →
       sentences !! idx x = Some (sentence x)
       ∧ score x = score_of freqs (sentence x))
  ∧ ∃ rest, scored_sentences ≡ₚ top ++ rest
            ∧ ∀ a b, a ∈ top → b ∈ rest → ranks_before a b.
Proof.
  intros ss freqs L top Hn Hlen Hne. split; [|split; [|split]].
  - apply summarize_text_scored; [exact Hlen|exact Hne].
  - unfold top, select_top, sort_by_idx. rewrite sort_by_perm.
    rewrite slice_to_length; [lia|lia|].
    unfold sort_by_score_desc. rewrite sort_by_perm, score_from_length. exact Hlen.
  - intros x Hx. apply score_from_elem in Hx as (_ & Hx & Hs).
    rewrite Nat.sub_0_r in Hx. done.
  - pose proof (sort_by_score_desc_ranked freqs ss) as Hs.
    exists (drop (Z.to_nat max_sentences) (sort_by_score_desc L)).
    assert (Htop : top ≡ₚ take (Z.to_nat max_sentences) (sort_by_score_desc L)).
    { unfold top, select_top, sort_by_idx. rewrite sort_by_perm.
      rewrite slice_to_nonneg by lia. done. }
    split.
    + rewrite Htop, take_drop. unfold sort_by_score_desc. by rewrite sort_by_perm.
    + intros a b Ha Hb. rewrite Htop in Ha.
      fold L in Hs. rewrite <- (take_drop (Z.to_nat max_sentences)) in Hs.
      eapply StronglySorted_app_1_elem_of; eassumption.
Qed.

Lemma summarize_selects_top_scores_witness :
  let text := lit "Cats purr. Dogs bark at cats. Birds sing." in
  summarize_text text 1 = lit "Dogs bark at cats."
  ∧ ∃ rest, score_from (_build_word_frequencies (split_sentences text)) 0
              (split_sentences text)
            ≡ₚ select_top (_build_word_frequencies (split_sentences text))
                 (split_sentences text) 1 ++ rest
            ∧ ∀ a b,
                a ∈ select_top (_build_word_frequencies (split_sentences text))
                      (split_sentences text) 1 →
                b ∈ rest → ranks_before a b.
Proof.
  intros text.
  destruct (summarize_selects_top_scores text 1) as (H1 & _ & _ & H4).
  - lia.
  - by vm_compute.
  - refine (proj1 (bool_decide_eq_false _) _). by vm_compute.
  - split; [|exact H4]. rewrite H1. by vm_compute.
Defined.

(** C8. [summarize_text] is a total function: no input makes it raise.  A
    text without sentences gives the empty string; with more sentences than
    [max_sentences] and an empty frequency table (which is the case exactly
    when every token is a stopword or has at most two characters) it gives
    the first [max_sentences] sentences joined by single spaces. *)
Theorem summarize_degrades_gracefully (text : str) (max_sentences : Z) :
  let sentences := split_sentences text in
  (sentences = [] → summarize_text text max_sentences = [])
  ∧ ((Z.of_nat (length sentences) > max_sentences)%Z →
     _build_word_frequencies sentences = ∅ →
     summarize_text text max_sentences = join [space] (slice_to max_sentences sentences)
     ∧ ((0 ≤ max_sentences)%Z →
        summarize_text text max_sentences
        = join [space] (take (Z.to_nat max_sentences) sentences)))
  ∧ (_build_word_frequencies sentences = ∅ ↔
     ∀ s t, s ∈ sentences → t ∈ findall_word (lower s) →
            t ∈ STOPWORDS ∨ length t ≤ 2).
Proof.
  intros ss. split; [|split].
  - intros H. rewrite summarize_text_unfold. cbv zeta. fold ss. rewrite H. done.
  - intros Hlen He.
    assert (H : summarize_text text max_sentences
                = unwords (slice_to max_sentences ss)).
    { apply summarize_text_fallback; [apply Z.gt_lt, Hlen|exact He]. }
    split; [exact H|]. intros Hn. rewrite H, slice_to_nonneg by exact Hn. done.
  - rewrite word_frequencies_empty, Forall_forall.
    assert (Hsk : ∀ t, skipped t = true ↔ t ∈ STOPWORDS ∨ length t ≤ 2).
    { intros t. unfold skipped. rewrite orb_true_iff, !bool_decide_eq_true. done. }
    split.
    + intros H s t Hs Ht. apply Hsk. specialize (H s Hs).
      rewrite Forall_forall in H. auto.
    + intros H s Hs. apply Forall_forall. intros t Ht. apply Hsk. eauto.
Qed.

Lemma summarize_degrades_gracefully_witness :
  summarize_text (lit "   ") 3 = []
  ∧ summarize_text (lit "It is. To be. Or so. He is.") 2 = lit "It is. To be.".
Proof.
  destruct (summarize_degrades_gracefully (lit "   ") 3) as (H1 & _ & _).
  destruct (summarize_degrades_gracefully (lit "It is. To be. Or so. He is.") 2)
    as (_ & H2 & _).
  split.
  - apply H1. by vm_compute.
  - destruct H2 as [_ H2].
    + by vm_compute.
    + refine (proj1 (bool_decide_eq_true _) _). by vm_compute.
    + rewrite H2 by lia. by vm_compute.
Defined.

(** ** The random source *)

Lemma insert_swap_perm {A} (l : list A) j a b :
  l !! j = Some b → b :: <[j := a]> l ≡ₚ a :: l.
Proof.
  revert j. induction l as [|h l IH]; intros [|j] Hj; simplify_eq/=.
  - constructor.
  - etrans; [apply perm_swap|]. etrans; [apply perm_skip, IH, Hj|apply perm_swap].
Qed.

Lemma swap_perm {A} (i j : nat) (x : list A) : Random.swap i j x ≡ₚ x.
Proof.
  unfold Random.swap.
  destruct (x !! i) as [a|] eqn:Hi; [|done].
  destruct (x !! j) as [b|] eqn:Hj; [|done].
  revert i j Hi Hj. induction x as [|h x IH]; intros [|i] [|j] Hi Hj; simplify_eq/=.
  - done.
  - by apply insert_swap_perm.
  - by apply insert_swap_perm.
  - constructor. by apply IH.
Qed.

Lemma shuffle_from_perm {A} i (x : list A) t :
  (Random.shuffle_from i x t).1 ≡ₚ x.
Proof.
  revert x t. induction i as [|i IH]; intros x t; [done|].
  cbn [Random.shuffle_from]. destruct (Random.randbelow (S (S i)) t) as [j t'].
  rewrite IH. apply swap_perm.
Qed.

Lemma shuffle_perm {A} (x : list A) t : (Random.shuffle x t).1 ≡ₚ x.
Proof. apply shuffle_from_perm. Qed.

Lemma randbelow_lt n t : 0 < n → (Random.randbelow n t).1 < n.
Proof.
  intros Hn. destruct t as [|x t]; simpl; [done|].
  apply Nat.mod_upper_bound. lia.
Qed.

Lemma bind_Return {A B} (m : M A) (f : A → M B) t r :
  bind m f t = Return r → ∃ a t1, m t = Return (a, t1) ∧ f a t1 = Return r.
Proof. unfold bind. destruct (m t) as [[a t1]| |]; [eauto|done|done]. Qed.

Lemma bind_Raise {A B} (m : M A) (f : A → M B) t e :
  bind m f t = Raise e →
  m t = Raise e ∨ ∃ a t1, m t = Return (a, t1) ∧ f a t1 = Raise e.
Proof. unfold bind. destruct (m t) as [[a t1]| |]; [eauto| |done]. intros [= ->]. auto. Qed.

(** [random.choice] on a non-empty sequence returns one of its entries. *)
Lemma choice_spec {A} (seq : list A) t :
  seq ≠ [] → ∃ a t1, choice seq t = Return (a, t1) ∧ a ∈ seq.
Proof.
  intros Hne. unfold choice. destruct seq as [|x seq]; [done|].
  pose proof (randbelow_lt (length (x :: seq)) t) as Hlt.
  destruct (Random.randbelow (length (x :: seq)) t) as [i t1].
  destruct (lookup_lt_is_Some_2 (x :: seq) i) as [a Ha]; [apply Hlt; simpl; lia|].
  rewrite Ha. exists a, t1. split; [done|]. eapply list_elem_of_lookup_2, Ha.
Qed.

(** ** Distractors *)

Lemma fresh_inv_init answer : fresh_inv answer [] {[lower answer]}.
Proof.
  split; [repeat constructor; apply not_elem_of_nil|].
  intros x Hx. apply list_elem_of_singleton in Hx. set_solver.
Qed.

Lemma fresh_inv_snoc answer d seen token :
  fresh_inv answer d seen → token ∉ seen →
  ∀ tok, lower tok = token → fresh_inv answer (d ++ [tok]) ({[token]} ∪ seen).
Proof.
  intros [Hnd Hin] Hfresh tok <-. split.
  - rewrite fmap_app. simpl. rewrite app_comm_cons. apply NoDup_app.
    split; [exact Hnd|]. split; [|repeat constructor; apply not_elem_of_nil].
    intros x Hx Hx'. apply list_elem_of_singleton in Hx'. subst. auto.
  - intros x. rewrite fmap_app. simpl. rewrite app_comm_cons, elem_of_app.
    intros [Hx|Hx]; [apply Hin in Hx; set_solver|].
    apply list_elem_of_singleton in Hx. set_solver.
Qed.

Lemma scan_vocabulary_inv answer k vocabulary d seen d' seen' :
  fresh_inv answer d seen →
  scan_vocabulary k vocabulary d seen = (d', seen') →
  fresh_inv answer d' seen'.
Proof.
  revert d seen. induction vocabulary as [|token rest IH]; intros d seen Hinv; simpl.
  - intros [= <- <-]. exact Hinv.
  - case_bool_decide as Hseen; [apply IH, Hinv|].
    destruct (_ || _); [apply IH, Hinv|].
    pose proof (fresh_inv_snoc _ _ _ _ Hinv Hseen token eq_refl) as Hinv'.
    case_bool_decide; [intros [= <- <-]; exact Hinv'|apply IH, Hinv'].
Qed.

Lemma synthesize_inv fuel answer k d seen d' :
  fresh_inv answer d seen →
  synthesize fuel answer k d seen = Some d' →
  k ≤ length d' ∧ ∃ seen', fresh_inv answer d' seen'.
Proof.
  revert d seen. induction fuel as [|fuel IH]; intros d seen Hinv; simpl.
  - case_bool_decide; [done|]. intros [= <-]. split; [lia|eauto].
  - case_bool_decide; [|intros [= <-]; split; [lia|eauto]].
    case_bool_decide as Hfresh; [|apply IH, Hinv].
    apply IH. eapply fresh_inv_snoc; [exact Hinv|exact Hfresh|reflexivity].
Qed.

(** What [_build_distractors] returns, when it returns: exactly [k]
    distractors that differ from the answer and from each other up to
    case. *)
Lemma build_distractors_spec fuel answer vocabulary k ds :
  _build_distractors fuel answer vocabulary k = Some ds →
  length ds = k ∧ NoDup (lower answer :: (lower <$> ds)).
Proof.
  unfold _build_distractors.
  destruct (scan_vocabulary k vocabulary [] {[lower answer]}) as [d seen] eqn:Hscan.
  pose proof (scan_vocabulary_inv _ _ _ _ _ _ _ (fresh_inv_init answer) Hscan) as Hinv.
  destruct (synthesize fuel answer k d seen) as [d'|] eqn:Hsyn; [|done].
  simpl. intros [= <-].
  destruct (synthesize_inv _ _ _ _ _ _ Hinv Hsyn) as (Hlen & seen' & Hnd & _).
  split; [rewrite length_take; lia|].
  eapply sublist_NoDup; [exact Hnd|].
  apply sublist_skip, fmap_sublist, sublist_take.
Qed.

(** The loop is stuck as soon as the synthetic word is in [seen]: the next
    iteration builds the same word again. *)
Lemma synthesize_stuck fuel answer k d seen :
  length d < k →
  lower (take 3 answer ++ str_of_nat (length d + 1)) ∈ seen →
  synthesize fuel answer k d seen = None.
Proof.
  intros Hlen Hin. induction fuel as [|fuel IH]; simpl.
  - by rewrite bool_decide_eq_true_2.
  - rewrite bool_decide_eq_true_2 by exact Hlen.
    rewrite bool_decide_eq_false_2 by auto. exact IH.
Qed.

(** ** The quiz loop *)

Lemma made_from_cons s sentences m : made_from sentences m → made_from (s :: sentences) m.
Proof.
  intros (s' & a & d & H & Hrest). exists s', a, d. split; [by right|exact Hrest].
Qed.

Lemma select_answer_word_spec sentence used t a t1 :
  _select_answer_word sentence used t = Return (Some a, t1) →
  a ∈ findall_word sentence ∧ 3 < length a
  ∧ (lower a ∉ STOPWORDS) ∧ (lower a ∉ used).
Proof.
  unfold _select_answer_word.
  destruct (filter _ (findall_word sentence)) as [|c cs] eqn:Hc; [done|].
  destruct (choice_spec (c :: cs) t) as (x & t' & Hch & Hx); [done|].
  unfold bind. rewrite Hch. intros [= -> ->].
  rewrite <- Hc in Hx. apply list_elem_of_filter in Hx as [Hcand Hx].
  unfold candidate in Hcand. rewrite !andb_true_iff, !bool_decide_eq_true in Hcand.
  destruct Hcand as [[? ?] ?]. done.
Qed.

Lemma index_spec x l t i t1 :
  index x l t = Return (i, t1) → l !! i = Some x ∧ t1 = t.
Proof.
  unfold index. destruct (list_find _ l) as [[j y]|] eqn:Hf; [|done].
  intros [= -> ->]. apply list_find_Some in Hf as (Hj & -> & _). done.
Qed.

Lemma index_total x l t : x ∈ l → ∃ i, index x l t = Return (i, t).
Proof.
  intros Hx. unfold index.
  destruct (list_find_elem_of (λ o, o = x) l x Hx eq_refl) as [[i y] ->]. eauto.
Qed.

(** One question: the options built for [answer]. *)
Lemma options_spec fuel answer vocab ds t options i :
  _build_distractors fuel answer vocab 3 = Some ds →
  options = (Random.shuffle (ds ++ [answer]) t).1 →
  options !! i = Some answer →
  length options = 4 ∧ i < 4 ∧ NoDup (lower <$> options)
  ∧ options ≡ₚ ds ++ [answer] ∧ length ds = 3.
Proof.
  intros [Hlen Hnd]%build_distractors_spec -> Hi.
  pose proof (shuffle_perm (ds ++ [answer]) t) as Hp.
  assert (Hl : length (Random.shuffle (ds ++ [answer]) t).1 = 4).
  { rewrite Hp, length_app, Hlen. reflexivity. }
  split; [exact Hl|]. split; [apply lookup_lt_Some in Hi; lia|].
  split; [|done]. rewrite Hp, fmap_app. simpl.
  rewrite Permutation_app_comm. exact Hnd.
Qed.

Lemma loop_post_skip k s sentences mcqs used res :
  loop_post k sentences mcqs used res → loop_post k (s :: sentences) mcqs used res.
Proof.
  intros (new & H1 & H2 & H3 & H4 & H5). exists new.
  repeat split; [done|simpl; lia|done| |done].
  eapply Forall_impl; [exact H4|]. intros m (? & ? & ?).
  auto using made_from_cons.
Qed.

Lemma loop_post_stop k sentences mcqs used : loop_post k sentences mcqs used mcqs.
Proof.
  exists []. rewrite app_nil_r. repeat split; [simpl; lia|done|constructor|constructor].
Qed.

Lemma mcq_loop_spec fuel vocab k sentences mcqs used t res t' :
  mcq_loop fuel vocab k sentences mcqs used t = Return (res, t') →
  loop_post k sentences mcqs used res.
Proof.
  revert mcqs used t. induction sentences as [|s rest IH]; intros mcqs used t H.
  { injection H as <- _. apply loop_post_stop. }
  cbn [mcq_loop] in H.
  destruct (decide (k ≤ Z.of_nat (length mcqs))%Z) as [Hk|Hk].
  { injection H as <- _. apply loop_post_stop. }
  apply bind_Return in H as (ans & t1 & Hsel & H).
  destruct ans as [a|]; [|by eapply loop_post_skip, IH].
  destruct (truthy a); [|by eapply loop_post_skip, IH].
  destruct (decide (_build_question s a = s)) as [Hq|Hq];
    [by eapply loop_post_skip, IH|].
  apply select_answer_word_spec in Hsel as (Htok & Hlen & Hstop & Hused).
  apply bind_Return in H as (ds & t2 & Hds & H).
  unfold run_distractors in Hds.
  destruct (_build_distractors fuel a vocab 3) as [ds'|] eqn:Hbd; [|done].
  injection Hds as -> ->.
  apply bind_Return in H as (opts & t3 & Hsh & H).
  injection Hsh as Hsh. apply (f_equal fst) in Hsh. simpl in Hsh. symmetry in Hsh.
  apply bind_Return in H as (i & t4 & Hidx & H).
  apply index_spec in Hidx as [Hi ->].
  destruct (options_spec _ _ _ _ _ _ _ Hbd Hsh Hi) as (Ho1 & Ho2 & Ho3 & Ho4 & Ho5).
  apply IH in H as (new & H1 & H2 & H3 & H4 & H5).
  set (m := mkMCQ (_build_question s a) opts i) in *.
  assert (Hans : answer_of m = a) by (unfold answer_of; simpl; by rewrite Hi).
  exists (m :: new). split; [by rewrite H1, <- app_assoc|].
  split; [simpl; lia|]. split.
  { intros _. apply H3. rewrite length_app. simpl. lia. }
  split.
  - constructor.
    + split; [done|]. split; [|by rewrite Hans].
      exists s, a, ds. split; [by left|]. done.
    + eapply Forall_impl; [exact H4|]. intros m' (? & ? & Hm').
      split; [done|]. split; [by apply made_from_cons|]. set_solver.
  - simpl. constructor; [|exact H5].
    intros (m' & Heq & Hm')%list_elem_of_fmap. simpl in Heq.
    rewrite Forall_forall in H4. destruct (H4 m' Hm') as (_ & _ & Hnot).
    rewrite <- Heq, Hans in Hnot. apply Hnot, elem_of_union_l, elem_of_singleton.
    reflexivity.
Qed.

Lemma eligible_normalize text : eligible (normalize_whitespace text) = eligible text.
Proof. unfold eligible. by rewrite split_sentences_normalize. Qed.

(** What [generate_mcqs_from_text] returns, when it returns. *)
Lemma generate_spec fuel text k t mcqs t' :
  generate_mcqs_from_text fuel text k t = Return (mcqs, t') →
  loop_post k (eligible text) [] ∅ mcqs.
Proof.
  unfold generate_mcqs_from_text. rewrite eligible_normalize.
  destruct (eligible text) as [|s ss] eqn:He.
  - intros [= <- _]. apply loop_post_stop.
  - apply mcq_loop_spec.
Qed.

Lemma select_answer_word_no_raise sentence used t e :
  _select_answer_word sentence used t ≠ Raise e.
Proof.
  unfold _select_answer_word.
  destruct (filter _ (findall_word sentence)) as [|c cs]; [done|].
  destruct (choice_spec (c :: cs) t) as (x & t' & Hch & _); [done|].
  unfold bind. by rewrite Hch.
Qed.

(** The loop raises no exception: [random.choice] is called on a non-empty
    list and [options.index] on a list that holds the answer. *)
Lemma mcq_loop_no_raise fuel vocab k sentences mcqs used t e :
  mcq_loop fuel vocab k sentences mcqs used t ≠ Raise e.
Proof.
  revert mcqs used t. induction sentences as [|s rest IH]; intros mcqs used t H; [done|].
  cbn [mcq_loop] in H.
  destruct (decide (k ≤ Z.of_nat (length mcqs))%Z); [done|].
  apply bind_Raise in H as [H|(ans & t1 & _ & H)];
    [by apply select_answer_word_no_raise in H|].
  destruct ans as [a|]; [|by apply IH in H].
  destruct (truthy a); [|by apply IH in H].
  destruct (decide (_build_question s a = s)); [by apply IH in H|].
  apply bind_Raise in H as [H|(ds & t2 & _ & H)].
  { unfold run_distractors in H. by destruct (_build_distractors fuel a vocab 3). }
  apply bind_Raise in H as [H|(opts & t3 & Hsh & H)]; [done|].
  injection Hsh as Hsh. apply (f_equal fst) in Hsh. simpl in Hsh.
  assert (Ha : a ∈ opts).
  { rewrite <- Hsh, shuffle_perm. apply elem_of_app. right. by left. }
  destruct (index_total a opts t3 Ha) as [i Hi].
  apply bind_Raise in H as [H|(i' & t4 & _ & H)]; [congruence|].
  by apply IH in H.
Qed.

Lemma generate_no_raise fuel text k t e :
  generate_mcqs_from_text fuel text k t ≠ Raise e.
Proof.
  unfold generate_mcqs_from_text.
  destruct (eligible (normalize_whitespace text)); [done|apply mcq_loop_no_raise].
Qed.

Lemma sample_run :
  generate_mcqs_from_text 3 sample_text 5 sample_tape = Return (sample_mcqs, []).
Proof. by vm_compute. Qed.

(** C4. In every MCQ returned by [generate_mcqs_from_text] no two of the
    four options are equal up to case, and the option at [answer_index], the
    correct answer, is the only option equal to it up to case. *)
Theorem mcq_options_distinct (fuel : nat) (text : str) (k : Z) (t : Random.tape)
    (mcqs : list MCQ) (t' : Random.tape) (m : MCQ) :
  generate_mcqs_from_text fuel text k t = Return (mcqs, t') →
  m ∈ mcqs →
  length (options m) = 4
  ∧ NoDup (lower <$> options m)
  ∧ ∃ answer,
      options m !! answer_index m = Some answer
      ∧ ∀ j o, options m !! j = Some o →
               (lower o = lower answer ↔ j = answer_index m).
Proof.
  intros (new & -> & _ & _ & Hall & _)%generate_spec Hm.
  rewrite Forall_forall in Hall.
  destruct (Hall m Hm) as ((Hlen & Hidx & Hnd) & Hmade & _).
  destruct Hmade as (s & a & ds & _ & _ & _ & _ & _ & _ & _ & Ha).
  split; [exact Hlen|]. split; [exact Hnd|].
  exists a. split; [exact Ha|]. intros j o Ho. split.
  - intros Heq. eapply NoDup_lookup; [exact Hnd| |].
    + rewrite list_lookup_fmap, Ho. simpl. rewrite Heq. reflexivity.
    + rewrite list_lookup_fmap, Ha. reflexivity.
  - intros ->. congruence.
Qed.

Lemma mcq_options_distinct_witness :
  length (options sample_mcq) = 4 ∧ NoDup (lower <$> options sample_mcq).
Proof.
  destruct (mcq_options_distinct 3 sample_text 5 sample_tape sample_mcqs []
              sample_mcq) as (H1 & H2 & _).
  - exact sample_run.
  - apply (list_elem_of_lookup_2 _ 0). reflexivity.
  - split; [exact H1|exact H2].
Defined.

(** C5. [generate_mcqs_from_text] returns at most [k] MCQs and at most one
    per eligible sentence; each of them has four options and an index below
    four which points at the word that the question blanks. *)
Theorem generate_bounded (fuel : nat) (text : str) (k : Z) (t : Random.tape)
    (mcqs : list MCQ) (t' : Random.tape) :
  (0 ≤ k)%Z →
  generate_mcqs_from_text fuel text k t = Return (mcqs, t') →
  (Z.of_nat (length mcqs) ≤ k)%Z
  ∧ length mcqs ≤ length (eligible text)
  ∧ ∀ m, m ∈ mcqs →
      length (options m) = 4
      ∧ answer_index m < 4
      ∧ ∃ sentence answer,
          sentence ∈ eligible text
          ∧ answer ∈ findall_word sentence
          ∧ question m = _build_question sentence answer
          ∧ options m !! answer_index m = Some answer.
Proof.
  intros Hk (new & -> & Hlen & Hbound & Hall & _)%generate_spec.
  split; [apply Hbound; simpl; lia|]. split; [exact Hlen|].
  intros m Hm. rewrite Forall_forall in Hall.
  destruct (Hall m Hm) as ((Hl & Hidx & _) & Hmade & _).
  destruct Hmade as (s & a & ds & Hs & Ha & _ & _ & Hq & _ & _ & Hi).
  split; [exact Hl|]. split; [exact Hidx|]. exists s, a. done.
Qed.

Lemma generate_bounded_witness :
  (Z.of_nat (length sample_mcqs) ≤ 5)%Z
  ∧ length sample_mcqs ≤ length (eligible sample_text).
Proof.
  destruct (generate_bounded 3 sample_text 5 sample_tape sample_mcqs [])
    as (H1 & H2 & _); [lia|exact sample_run|done].
Defined.

(** C6. The correct answers of the MCQs of one call differ pairwise up to
    case. *)
Theorem answers_unique (fuel : nat) (text : str) (k : Z) (t : Random.tape)
    (mcqs : list MCQ) (t' : Random.tape) :
  generate_mcqs_from_text fuel text k t = Return (mcqs, t') →
  NoDup (lower ∘ answer_of <$> mcqs)
  ∧ (∀ m, m ∈ mcqs → options m !! answer_index m = Some (answer_of m))
  ∧ ∀ i j mi mj,
      mcqs !! i = Some mi → mcqs !! j = Some mj →
      lower (answer_of mi) = lower (answer_of mj) → i = j.
Proof.
  intros (new & -> & _ & _ & Hall & Hnd)%generate_spec. simpl.
  split; [exact Hnd|]. split.
  - intros m Hm. rewrite Forall_forall in Hall.
    destruct (Hall m Hm) as (_ & (s & a & ds & _ & _ & _ & _ & _ & _ & _ & Ha) & _).
    unfold answer_of. by rewrite Ha.
  - intros i j mi mj Hi Hj Heq. eapply NoDup_lookup; [exact Hnd| |].
    + rewrite list_lookup_fmap, Hi. reflexivity.
    + rewrite list_lookup_fmap, Hj. simpl. by rewrite Heq.
Qed.

Lemma answers_unique_witness : NoDup (lower ∘ answer_of <$> sample_mcqs).
Proof.
  destruct (answers_unique 3 sample_text 5 sample_tape sample_mcqs [])
    as (H & _); [exact sample_run|exact H].
Defined.

Lemma mcq_loop_cons fuel vocab k s rest mcqs used :
  mcq_loop fuel vocab k (s :: rest) mcqs used =
    if decide (k ≤ Z.of_nat (length mcqs))%Z then ret mcqs
    else
      let* answer := _select_answer_word s used in
      match answer with
      | Some answer =>
          if truthy answer then
            let question := _build_question s answer in
            if decide (question = s) then mcq_loop fuel vocab k rest mcqs used
            else
              let* distractors := run_distractors (_build_distractors fuel answer vocab 3) in
              let* options := shuffle (distractors ++ [answer]) in
              let* answer_index := index answer options in
              mcq_loop fuel vocab k rest
                       (mcqs ++ [mkMCQ question options answer_index])
                       ({[lower answer]} ∪ used)
          else mcq_loop fuel vocab k rest mcqs used
      | None => mcq_loop fuel vocab k rest mcqs used
      end.
Proof. reflexivity. Qed.

(** A sentence with one candidate: every tape selects it. *)
Lemma select_single sentence used a t :
  filter (λ t, candidate used t = true) (findall_word sentence) = [a] →
  _select_answer_word sentence used t = Return (Some a, tail t).
Proof.
  intros Hc. unfold _select_answer_word. rewrite Hc. unfold bind, choice.
  destruct t as [|x t]; reflexivity.
Qed.

(** C7, at the input where it fails.  The answer word [abc1] is its own
    first synthetic distractor ([abc] followed by [1]): with no vocabulary
    distractor the [while] loop of [_build_distractors] builds this word in
    every iteration and never appends it, so no amount of fuel lets
    [_build_distractors], or [generate_mcqs_from_text] on the text
    [abc1 is a an the.], return. *)
Theorem synthetic_collision_never_returns :
  (∀ fuel, _build_distractors fuel (lit "abc1") [lit "abc1"] 3 = None)
  ∧ (∀ fuel t,
       generate_mcqs_from_text fuel (lit "abc1 is a an the.") 5 t = OutOfFuel).
Proof.
  assert (Hd : ∀ fuel, _build_distractors fuel (lit "abc1") [lit "abc1"] 3 = None).
  { intros fuel. unfold _build_distractors.
    destruct (scan_vocabulary 3 [lit "abc1"] [] {[lower (lit "abc1")]})
      as [d seen] eqn:Hscan.
    pose proof (scan_vocabulary_inv _ _ _ _ _ _ _ (fresh_inv_init _) Hscan) as [_ Hin].
    apply (f_equal fst) in Hscan. vm_compute in Hscan. subst d.
    rewrite synthesize_stuck; [reflexivity|simpl; lia|].
    apply Hin. left. }
  split; [exact Hd|]. intros fuel t.
  unfold generate_mcqs_from_text.
  replace (eligible (normalize_whitespace (lit "abc1 is a an the.")))
    with [lit "abc1 is a an the."] by (by vm_compute).
  replace (build_vocabulary (findall_word (normalize_whitespace (lit "abc1 is a an the."))) ∅ [])
    with [lit "abc1"] by (by vm_compute).
  rewrite mcq_loop_cons. rewrite decide_False by (simpl; lia).
  unfold bind at 1.
  rewrite (select_single _ _ (lit "abc1")) by (by vm_compute).
  replace (truthy (lit "abc1")) with true by reflexivity.
  cbv zeta. rewrite decide_False by (by vm_compute).
  unfold bind at 1. rewrite Hd. reflexivity.
Qed.

(** ** Rejected arguments *)

Lemma summary_length_unsupported length :
  SUMMARY_SENTENCE_MAP !! length = None ↔ length ∉ SUPPORTED_LENGTHS.
Proof.
  unfold SUMMARY_SENTENCE_MAP, SUPPORTED_LENGTHS.
  rewrite !lookup_insert_None, lookup_singleton_None, !not_elem_of_cons.
  split.
  - intros ((? & ?) & ?). repeat split; try done. apply not_elem_of_nil.
  - intros (? & ? & ? & _). done.
Qed.

Lemma seven_not_a_choice : 7%Z ∉ COUNT_CHOICES.
Proof.
  unfold COUNT_CHOICES. rewrite !not_elem_of_cons.
  repeat split; try lia. apply not_elem_of_nil.
Qed.

(** C9 as stated fails for the question count: the count 7 is outside 5, 10
    and 20, and [generate_mcqs_from_text] does not reject it: the call
    returns three questions, and so does [generate_mcqs_from_file], after
    reading the file. *)
Lemma question_count_not_rejected :
  (7%Z ∉ COUNT_CHOICES)
  ∧ generate_mcqs_from_text 3 sample_text 7 sample_tape = Return (sample_mcqs, [])
  ∧ length sample_mcqs = 3
  ∧ generate_mcqs_from_file sample_world 3 (lit "notes.txt") 7 sample_tape
    = (Return (sample_mcqs, []), [Exists (lit "notes.txt"); OpenText (lit "notes.txt")])
  ∧ ¬ (∀ fuel text (k : Z) t,
         k ∉ COUNT_CHOICES →
         ∃ e, generate_mcqs_from_text fuel text k t = Raise e).
Proof.
  assert (Hrun : generate_mcqs_from_text 3 sample_text 7 sample_tape
                 = Return (sample_mcqs, [])) by (by vm_compute).
  split; [exact seven_not_a_choice|]. split; [exact Hrun|].
  split; [reflexivity|]. split; [by vm_compute|].
  intros H.
  destruct (H 3 sample_text 7%Z sample_tape seven_not_a_choice) as [e He].
  rewrite Hrun in He. discriminate He.
Qed.

(** C9, amended.  [summarize_file] raises [ValueError] for a length outside
    short, medium and long before any access to the file system.  The
    question count is checked by the command line only: the [quiz] command
    exits with status 2 for a count outside 5, 10 and 20 before any access
    to the file system, while [generate_mcqs_from_text] rejects no count: it
    never raises, and a count of zero or less gives the empty list. *)
Theorem invalid_arguments_rejected (w : world) (path length : str) (fuel : nat)
    (count : Z) (t : Random.tape) :
  (length ∉ SUPPORTED_LENGTHS →
   summarize_file w path length
   = (Raise (ValueError (lit "Unsupported summary length: " ++ length)), []))
  ∧ (count ∉ COUNT_CHOICES → main_quiz w fuel path count t = (Return 2, []))
  ∧ (∀ text e, generate_mcqs_from_text fuel text count t ≠ Raise e)
  ∧ ((count ≤ 0)%Z →
     ∀ text, generate_mcqs_from_text fuel text count t = Return ([], t)).
Proof.
  split; [|split; [|split]].
  - intros H%summary_length_unsupported. unfold summarize_file. by rewrite H.
  - intros H. unfold main_quiz. by rewrite bool_decide_eq_false_2.
  - intros text e. apply generate_no_raise.
  - intros Hc text. unfold generate_mcqs_from_text.
    destruct (eligible (normalize_whitespace text)) as [|s ss]; [reflexivity|].
    rewrite mcq_loop_cons. rewrite decide_True by (simpl; lia). reflexivity.
Qed.

Lemma invalid_arguments_rejected_witness :
  summarize_file sample_world (lit "notes.txt") (lit "tiny")
  = (Raise (ValueError (lit "Unsupported summary length: tiny")), [])
  ∧ main_quiz sample_world 3 (lit "notes.txt") 7 sample_tape = (Return 2, [])
  ∧ generate_mcqs_from_text 3 sample_text 0 sample_tape = Return ([], sample_tape).
Proof.
  destruct (invalid_arguments_rejected sample_world (lit "notes.txt") (lit "tiny")
              3 7%Z sample_tape) as (H1 & H2 & _ & _).
  destruct (invalid_arguments_rejected sample_world (lit "notes.txt") (lit "tiny")
              3 0%Z sample_tape) as (_ & _ & _ & H4).
  split; [|split].
  - apply H1. unfold SUPPORTED_LENGTHS. rewrite !not_elem_of_cons.
    repeat split; try done. apply not_elem_of_nil.
  - apply H2, seven_not_a_choice.
  - apply H4. lia.
Defined.

(** ** Sentences as groups of words *)

Lemma ends_term_cons c c' w : ends_term (c :: c' :: w) = ends_term (c' :: w).
Proof. reflexivity. Qed.

Lemma re_split_non_space a m c rest :
  is_space c = false →
  re_split a m (c :: rest) = push c (re_split (is_terminator c) false rest).
Proof. intros Hc. simpl. rewrite Hc. reflexivity. Qed.

Lemma re_split_word a m w rest :
  word w →
  re_split a m (w ++ rest) = prepend w (re_split (ends_term w) false rest).
Proof.
  intros [Hne Hw]. revert a m. induction w as [|c w IH]; [done|]. intros a m.
  apply Forall_cons in Hw as [Hc Hw].
  change ((c :: w) ++ rest) with (c :: (w ++ rest)).
  rewrite re_split_non_space by exact Hc.
  destruct w as [|c' w'].
  - simpl app. unfold ends_term. simpl last. simpl from_option.
    destruct (re_split (is_terminator c) false rest); reflexivity.
  - rewrite IH by done. rewrite ends_term_cons.
    destruct (re_split (ends_term (c' :: w')) false rest); reflexivity.
Qed.

Lemma chunks_nonnil w ws : chunks (w :: ws) ≠ [].
Proof. simpl. destruct (ends_term w); [done|]. by destruct (chunks ws). Qed.

Lemma chunks_groups ws :
  Forall word ws → Forall (λ g, g ≠ [] ∧ Forall word g) (chunks ws).
Proof.
  induction 1 as [|w ws Hw Hws IH]; simpl; [constructor|].
  destruct (ends_term w).
  - constructor; [|exact IH]. split; [done|]. by constructor.
  - destruct (chunks ws) as [|g gs].
    + constructor; [|constructor]. split; [done|]. by constructor.
    + apply Forall_cons in IH as [[Hg1 Hg2] IH].
      constructor; [|exact IH]. split; [done|]. by constructor.
Qed.

(** The regular expression cuts a normalized text into the groups of
    [chunks]. *)
Lemma re_split_unwords ws :
  Forall word ws → ws ≠ [] →
  ∀ a m, re_split a m (unwords ws) = unwords <$> chunks ws.
Proof.
  induction 1 as [|w ws Hw Hws IH]; [done|]. intros _ a m.
  destruct ws as [|w' ws'].
  - cbn [join]. rewrite <- (app_nil_r w) at 1. rewrite re_split_word by exact Hw.
    cbn [re_split prepend]. rewrite app_nil_r. cbn [chunks].
    destruct (ends_term w); reflexivity.
  - rewrite join_cons. rewrite re_split_word by exact Hw.
    change ([space] ++ unwords (w' :: ws')) with (space :: unwords (w' :: ws')).
    cbn [re_split]. rewrite is_space_space.
    pose proof (chunks_groups (w' :: ws') Hws) as Hg.
    pose proof (chunks_nonnil w' ws') as Hn.
    change (chunks (w :: w' :: ws')) with
      (if ends_term w then [w] :: chunks (w' :: ws')
       else match chunks (w' :: ws') with
            | [] => [[w]]
            | g :: gs => (w :: g) :: gs
            end).
    destruct (ends_term w).
    + rewrite IH by done. cbn [prepend]. rewrite app_nil_r. reflexivity.
    + rewrite IH by done.
      destruct (chunks (w' :: ws')) as [|g gs]; [done|].
      apply Forall_cons in Hg as [[Hg _] _].
      destruct g as [|q qs]; [done|].
      cbn [fmap list_fmap push prepend]. rewrite join_cons. reflexivity.
Qed.

Lemma rstrip_word_app w r :
  Forall (λ c, is_space c = false) w → rstrip (w ++ r) = w ++ rstrip r.
Proof.
  induction 1 as [|c w Hc Hw IH]; [reflexivity|].
  change ((c :: w) ++ r) with (c :: (w ++ r)).
  rewrite rstrip_cons_non_space by exact Hc. by rewrite IH.
Qed.

Lemma rstrip_unwords ws : Forall word ws → rstrip (unwords ws) = unwords ws.
Proof.
  induction 1 as [|w ws [Hne Hw] Hws IH]; [reflexivity|].
  destruct ws as [|w' ws'].
  - cbn [join]. rewrite <- (app_nil_r w) at 1. rewrite rstrip_word_app by exact Hw.
    apply app_nil_r.
  - rewrite join_cons, rstrip_word_app by exact Hw. f_equal.
    change ([space] ++ unwords (w' :: ws')) with (space :: unwords (w' :: ws')).
    cbn [rstrip]. rewrite IH.
    apply Forall_cons in Hws as [[Hne' _] _].
    pose proof (unwords_nonempty w' ws' Hne') as Hn.
    destruct (unwords (w' :: ws')); done.
Qed.

Lemma lstrip_unwords ws : Forall word ws → lstrip (unwords ws) = unwords ws.
Proof.
  destruct 1 as [|w ws [Hne Hw] Hws]; [reflexivity|].
  destruct w as [|c w]; [done|]. apply Forall_cons in Hw as [Hc _].
  rewrite unwords_push. simpl. rewrite Hc. reflexivity.
Qed.

Lemma strip_unwords ws : Forall word ws → strip (unwords ws) = unwords ws.
Proof. intros H. unfold strip. by rewrite lstrip_unwords, rstrip_unwords. Qed.

(** [split_sentences] in terms of the words of the text. *)
Lemma split_sentences_chunks t :
  split_sentences t = unwords <$> chunks (split_ws t).
Proof.
  unfold split_sentences. rewrite normalize_whitespace_words.
  pose proof (split_ws_words t) as Hw.
  destruct (split_ws t) as [|w ws] eqn:Hws; [reflexivity|].
  apply Forall_cons in Hw as Hw'. destruct Hw' as [[Hne _] _].
  pose proof (unwords_nonempty w ws Hne) as Hn.
  destruct (unwords (w :: ws)) as [|c u] eqn:Hu; [done|]. cbn [truthy].
  rewrite <- Hu, re_split_unwords by done.
  pose proof (chunks_groups (w :: ws) Hw) as Hg. revert Hg.
  generalize (chunks (w :: ws)). intros gs Hg.
  induction Hg as [|g gs [Hg1 Hg2] Hgs IH]; [reflexivity|].
  cbn [fmap list_fmap omap list_omap]. rewrite strip_unwords by exact Hg2.
  destruct g as [|q qs]; [done|]. apply Forall_cons in Hg2 as Hq.
  destruct Hq as [[Hq _] _].
  pose proof (unwords_nonempty q qs Hq) as Hn'.
  destruct (unwords (q :: qs)) eqn:Hu'; [done|]. cbn [truthy].
  f_equal. exact IH.
Qed.

Lemma chunks_group pre w rest :
  open_words pre → ends_term w = true →
  chunks (pre ++ w :: rest) = (pre ++ [w]) :: chunks rest.
Proof.
  intros Hpre Hw. induction Hpre as [|p pre Hp Hpre IH]; simpl.
  - by rewrite Hw.
  - by rewrite Hp, IH.
Qed.

Lemma chunks_last pre w : open_words pre → chunks (pre ++ [w]) = [pre ++ [w]].
Proof.
  intros Hpre. induction Hpre as [|p pre Hp Hpre IH]; simpl.
  - by destruct (ends_term w).
  - by rewrite Hp, IH.
Qed.

Lemma well_chunked_chunks ws : well_chunked (chunks ws).
Proof.
  induction ws as [|w ws IH]; simpl; [constructor|].
  destruct (ends_term w) eqn:Hw.
  - apply (wc_cons [] w); [constructor|done|exact IH].
  - destruct IH as [|pre w0 gs Hpre Hw0 Hgs].
    + apply (wc_cons [] w []); [constructor|done|constructor].
    + apply (wc_cons (w :: pre) w0 gs); [by constructor|done|done].
Qed.

Lemma well_chunked_sublist gs' gs :
  sublist gs' gs → well_chunked gs → well_chunked gs'.
Proof.
  induction 1 as [|g l1 l2 Hsub IH|g l1 l2 Hsub IH]; intros Hwc; [constructor| |].
  - inversion Hwc as [|pre w gs0 Hpre Hw Hgs]; subst.
    constructor; [done| |auto].
    intros Hne. apply Hw. intros ->. apply sublist_nil_r in Hsub. done.
  - inversion Hwc; subst. auto.
Qed.

Lemma chunks_concat gs : well_chunked gs → chunks (concat gs) = gs.
Proof.
  induction 1 as [|pre w gs Hpre Hw Hgs IH]; [reflexivity|].
  simpl. rewrite <- app_assoc. simpl.
  destruct gs as [|g gs'].
  - simpl. by rewrite chunks_last.
  - rewrite chunks_group by auto. by rewrite IH.
Qed.

Lemma well_chunked_nonempty gs : well_chunked gs → Forall (λ g, g ≠ []) gs.
Proof.
  induction 1 as [|pre w gs Hpre Hw Hgs IH]; constructor; [|exact IH].
  by destruct pre.
Qed.

Lemma sublist_fmap_inv {A B} (f : A → B) (l : list B) (k : list A) :
  sublist l (f <$> k) → ∃ k', l = f <$> k' ∧ sublist k' k.
Proof.
  revert l. induction k as [|x k IH]; intros l Hl; simpl in Hl.
  - apply sublist_nil_r in Hl as ->. exists []. done.
  - apply sublist_cons_r in Hl as [Hl|(l' & -> & Hl)].
    + destruct (IH l Hl) as (k' & -> & Hk). exists k'. split; [done|].
      by apply sublist_cons.
    + destruct (IH l' Hl) as (k' & -> & Hk). exists (x :: k'). split; [done|].
      by apply sublist_skip.
Qed.

Lemma unwords_app l1 l2 :
  l1 ≠ [] → l2 ≠ [] → unwords (l1 ++ l2) = unwords l1 ++ [space] ++ unwords l2.
Proof.
  intros H1 H2. induction l1 as [|p l1 IH]; [done|].
  destruct l1 as [|q l1].
  - destruct l2; [done|]. reflexivity.
  - change ((p :: q :: l1) ++ l2) with (p :: (q :: l1) ++ l2).
    change ((q :: l1) ++ l2) with (q :: (l1 ++ l2)) at 1.
    rewrite !join_cons. change (q :: (l1 ++ l2)) with ((q :: l1) ++ l2).
    rewrite IH by done. by rewrite <- !app_assoc.
Qed.

Lemma unwords_concat gs :
  Forall (λ g, g ≠ []) gs → unwords (unwords <$> gs) = unwords (concat gs).
Proof.
  induction 1 as [|g gs Hg Hgs IH]; [reflexivity|].
  destruct gs as [|g' gs'].
  - simpl. by rewrite app_nil_r.
  - change (unwords <$> g :: g' :: gs')
      with (unwords g :: unwords g' :: (unwords <$> gs')).
    rewrite join_cons.
    change (unwords g' :: (unwords <$> gs')) with (unwords <$> g' :: gs').
    rewrite IH. change (concat (g :: g' :: gs')) with (g ++ concat (g' :: gs')).
    rewrite unwords_app; [done|done|].
    apply Forall_cons in Hgs as [Hg' _]. simpl. by destruct g'.
Qed.

(** Sentences taken in order from a segmented text and joined by single
    spaces segment into themselves. *)
Lemma split_sentences_rejoin t sel :
  sublist sel (split_sentences t) →
  split_sentences (unwords sel) = sel.
Proof.
  rewrite split_sentences_chunks.
  intros (gs & -> & Hsub)%sublist_fmap_inv.
  pose proof (well_chunked_sublist _ _ Hsub (well_chunked_chunks _)) as Hwc.
  pose proof (well_chunked_nonempty _ Hwc) as Hne.
  assert (Hwords : Forall word (concat gs)).
  { apply Forall_concat.
    pose proof (chunks_groups _ (split_ws_words t)) as Hall.
    rewrite Forall_forall in Hall. apply Forall_forall. intros g Hg.
    apply (Hall g), (sublist_subseteq _ _ Hsub), Hg. }
  rewrite split_sentences_chunks, unwords_concat by exact Hne.
  rewrite split_ws_unwords by exact Hwords.
  by rewrite chunks_concat.
Qed.

Lemma summarize_text_short text n :
  (Z.of_nat (length (split_sentences text)) ≤ n)%Z →
  summarize_text text n = unwords (split_sentences text).
Proof.
  intros Hle. rewrite summarize_text_unfold. cbv zeta.
  destruct (split_sentences text) as [|s ss] eqn:Hss; [reflexivity|].
  rewrite decide_True by exact Hle. reflexivity.
Qed.

(** C10. Summarizing a summary with the same bound gives the summary back:
    the output segments into the selected sentences, which are at most
    [max_sentences], so the second call takes the identity path. *)
Theorem summarize_idempotent (text : str) (max_sentences : Z) :
  (1 ≤ max_sentences)%Z →
  summarize_text (summarize_text text max_sentences) max_sentences
  = summarize_text text max_sentences.
Proof.
  intros Hn.
  destruct (summarize_text_selection text max_sentences) as (sel & -> & Hsub & Hlen).
  pose proof (split_sentences_rejoin _ _ Hsub) as Hre.
  rewrite summarize_text_short; rewrite Hre; [reflexivity|apply Hlen; lia].
Qed.

Lemma summarize_idempotent_witness :
  let text := lit "Cats purr.  Dogs bark at cats.
Birds sing and   cats listen" in
  summarize_text (summarize_text text 2) 2 = summarize_text text 2.
Proof. intros text. apply summarize_idempotent. lia. Defined.

(** ** Termination of the generator *)

Lemma lower_char_clean c : is_123 c = false → is_123 (lower_char c) = false.
Proof.
  destruct c as [[] [] [] [] [] [] [] []]; vm_compute; congruence.
Qed.

Lemma lower_clean s : clean s → clean (lower s).
Proof.
  unfold clean, lower. intros H. rewrite Forall_fmap.
  eapply Forall_impl; [exact H|]. intros c. apply lower_char_clean.
Qed.

Lemma clean_runs P s : clean s → Forall clean (runs P s).
Proof.
  induction 1 as [|c s Hc Hs IH]; [constructor|].
  rewrite runs_cons. destruct (P c); [|exact IH].
  destruct s as [|c' s']; [repeat constructor; exact Hc|].
  destruct (P c').
  - destruct (runs P (c' :: s')) as [|w ws]; [repeat constructor; exact Hc|].
    apply Forall_cons in IH as [Hw Hws]. constructor; [by constructor|exact Hws].
  - constructor; [repeat constructor; exact Hc|exact IH].
Qed.

Lemma clean_unwords ws : Forall clean ws → clean (unwords ws).
Proof.
  induction 1 as [|w ws Hw Hws IH]; [constructor|].
  destruct ws as [|w' ws']; [exact Hw|].
  rewrite join_cons. apply Forall_app. split; [exact Hw|].
  apply Forall_app. split; [repeat constructor|exact IH].
Qed.

Lemma clean_chunks ws : Forall clean ws → Forall (Forall clean) (chunks ws).
Proof.
  induction 1 as [|w ws Hw Hws IH]; simpl; [constructor|].
  destruct (ends_term w); [constructor; [by constructor|exact IH]|].
  destruct (chunks ws) as [|g gs]; [repeat constructor; exact Hw|].
  apply Forall_cons in IH as [Hg Hgs]. constructor; [by constructor|exact Hgs].
Qed.

Lemma clean_normalize t : clean t → clean (normalize_whitespace t).
Proof.
  intros Ht. rewrite normalize_whitespace_words.
  apply clean_unwords, clean_runs, Ht.
Qed.

Lemma clean_sentences t : clean t → Forall clean (split_sentences t).
Proof.
  intros Ht. rewrite split_sentences_chunks, Forall_fmap.
  eapply Forall_impl; [apply clean_chunks, clean_runs, Ht|].
  intros g Hg. apply clean_unwords, Hg.
Qed.

(** A synthetic distractor holds one of the three digits. *)
Lemma synthetic_not_clean answer j :
  1 ≤ j ≤ 3 → ¬ clean (lower (take 3 answer ++ str_of_nat j)).
Proof.
  intros Hj Hc. unfold lower in Hc. rewrite fmap_app in Hc.
  apply Forall_app in Hc as [_ Hc].
  assert (j = 1 ∨ j = 2 ∨ j = 3) as [-> | [-> | ->]] by lia;
    vm_compute in Hc; inversion Hc; discriminate.
Qed.

Lemma synthetic_inj answer i j :
  1 ≤ i ≤ 3 → 1 ≤ j ≤ 3 →
  lower (take 3 answer ++ str_of_nat i) = lower (take 3 answer ++ str_of_nat j) →
  i = j.
Proof.
  intros Hi Hj. unfold lower. rewrite !fmap_app. intros H%app_inv_head.
  assert (i = 1 ∨ i = 2 ∨ i = 3) as [-> | [-> | ->]] by lia;
    assert (j = 1 ∨ j = 2 ∨ j = 3) as [-> | [-> | ->]] by lia;
    vm_compute in H; congruence.
Qed.

Lemma synthesize_returns fuel answer d seen :
  no_collision answer d seen → 3 - length d ≤ fuel →
  ∃ d', synthesize fuel answer 3 d seen = Some d'.
Proof.
  revert d seen. induction fuel as [|fuel IH]; intros d seen Hnc Hfuel; simpl.
  - rewrite bool_decide_eq_false_2 by lia. eauto.
  - case_bool_decide as Hlen; [|eauto].
    rewrite bool_decide_eq_true_2.
    + apply IH; [|rewrite length_app; simpl; lia].
      intros x j Hx Hj. rewrite length_app in Hj. simpl in Hj.
      apply elem_of_union in Hx as [Hx|Hx].
      * apply elem_of_singleton in Hx as ->. intros Heq.
        apply synthetic_inj in Heq; lia.
      * apply Hnc; [exact Hx|lia].
    + intros Hin. eapply Hnc; [exact Hin| |reflexivity]. lia.
Qed.

Lemma scan_vocabulary_seen k vocabulary d seen d' seen' x :
  scan_vocabulary k vocabulary d seen = (d', seen') → x ∈ seen' →
  x ∈ seen ∨ ∃ v, v ∈ vocabulary ∧ x = lower v.
Proof.
  revert d seen. induction vocabulary as [|token rest IH]; intros d seen; simpl.
  - intros [= <- <-] Hx. by left.
  - assert (Hrec : ∀ d0 seen0,
      scan_vocabulary k rest d0 seen0 = (d', seen') → x ∈ seen' →
      (x ∈ seen0 → x ∈ seen ∨ ∃ v, v ∈ token :: rest ∧ x = lower v) →
      x ∈ seen ∨ ∃ v, v ∈ token :: rest ∧ x = lower v).
    { intros d0 seen0 Hs Hx Hseen0.
      destruct (IH _ _ Hs Hx) as [H|(v & Hv & ->)]; [auto|].
      right. exists v. split; [by right|done]. }
    assert (Hnew : x ∈ {[lower token]} ∪ seen →
                   x ∈ seen ∨ ∃ v, v ∈ token :: rest ∧ x = lower v).
    { intros [->%elem_of_singleton|H]%elem_of_union; [right|by left].
      exists token. split; [by left|done]. }
    case_bool_decide; [intros; eapply Hrec; eauto|].
    destruct (_ || _); [intros; eapply Hrec; eauto|].
    case_bool_decide; [|intros; eapply Hrec; eauto].
    intros [= <- <-] Hx. auto.
Qed.

(** Without the digits 1, 2 and 3 in the answer and in the vocabulary the
    three synthetic distractors are new, and three iterations suffice. *)
Lemma build_distractors_returns fuel answer vocabulary :
  clean answer → Forall clean vocabulary → 3 ≤ fuel →
  ∃ ds, _build_distractors fuel answer vocabulary 3 = Some ds.
Proof.
  intros Ha Hv Hfuel. unfold _build_distractors.
  destruct (scan_vocabulary 3 vocabulary [] {[lower answer]}) as [d seen] eqn:Hscan.
  destruct (synthesize_returns fuel answer d seen) as [d' ->]; [|lia|simpl; eauto].
  intros x j Hx Hj Heq.
  apply (synthetic_not_clean answer j); [lia|]. rewrite <- Heq.
  destruct (scan_vocabulary_seen _ _ _ _ _ _ _ Hscan Hx) as [H|(v & Hin & ->)].
  - apply elem_of_singleton in H as ->. apply lower_clean, Ha.
  - rewrite Forall_forall in Hv. apply lower_clean, Hv, Hin.
Qed.

Lemma select_answer_word_returns sentence used t :
  ∃ ans t1, _select_answer_word sentence used t = Return (ans, t1).
Proof.
  unfold _select_answer_word.
  destruct (filter _ (findall_word sentence)) as [|c cs]; [by eexists _, _|].
  destruct (choice_spec (c :: cs) t) as (x & t' & Hch & _); [done|].
  unfold bind. rewrite Hch. by eexists _, _.
Qed.

Lemma mcq_loop_returns fuel vocab k sentences mcqs used t :
  Forall clean vocab → Forall clean sentences → 3 ≤ fuel →
  ∃ res t', mcq_loop fuel vocab k sentences mcqs used t = Return (res, t').
Proof.
  intros Hv Hs Hfuel. revert mcqs used t.
  induction Hs as [|s rest Hs Hrest IH]; intros mcqs used t; [by eexists _, _|].
  rewrite mcq_loop_cons.
  destruct (decide (k ≤ Z.of_nat (length mcqs))%Z); [by eexists _, _|].
  destruct (select_answer_word_returns s used t) as (ans & t1 & Hsel).
  unfold bind at 1. rewrite Hsel.
  destruct ans as [a|]; [|apply IH].
  destruct (truthy a); [|apply IH]. cbv zeta.
  destruct (decide (_build_question s a = s)); [apply IH|].
  apply select_answer_word_spec in Hsel as (Ha & _).
  assert (Hclean : clean a).
  { pose proof (clean_runs is_word s Hs) as Hall.
    rewrite Forall_forall in Hall. apply Hall, Ha. }
  destruct (build_distractors_returns fuel a vocab Hclean Hv Hfuel) as [ds ->].
  unfold bind at 1. cbn [run_distractors ret].
  unfold bind at 1. unfold shuffle at 1.
  destruct (Random.shuffle (ds ++ [a]) t1) as [opts t2] eqn:Hsh.
  assert (Hin : a ∈ opts).
  { pose proof (shuffle_perm (ds ++ [a]) t1) as Hp. rewrite Hsh in Hp.
    simpl in Hp. rewrite Hp. apply elem_of_app. right. by left. }
  destruct (index_total a opts t2 Hin) as [i Hi].
  unfold bind at 1. rewrite Hi. apply IH.
Qed.

Lemma build_vocabulary_subset tokens seen acc x :
  x ∈ build_vocabulary tokens seen acc → x ∈ acc ∨ x ∈ tokens.
Proof.
  revert seen acc. induction tokens as [|token rest IH]; intros seen acc; simpl.
  - by left.
  - destruct (_ || _).
    + intros [H|H]%IH; [by left|right; by right].
    + intros [H|H]%IH; [|right; by right].
      apply elem_of_app in H as [H|H]; [by left|].
      apply list_elem_of_singleton in H as ->. right. by left.
Qed.

(** On a text without the digits 1, 2 and 3 the generator returns, for
    every count and every tape, with three units of fuel. *)
Lemma generate_returns fuel text k t :
  clean text → 3 ≤ fuel →
  ∃ mcqs t', generate_mcqs_from_text fuel text k t = Return (mcqs, t').
Proof.
  intros Ht Hfuel. unfold generate_mcqs_from_text.
  destruct (eligible (normalize_whitespace text)) as [|s ss] eqn:He;
    [by eexists _, _|].
  rewrite <- He. apply mcq_loop_returns; [| |exact Hfuel].
  - apply Forall_forall. intros x [Hx|Hx]%build_vocabulary_subset.
    + by apply elem_of_nil in Hx.
    + pose proof (clean_runs is_word _ (clean_normalize _ Ht)) as Hall.
      rewrite Forall_forall in Hall. apply Hall, Hx.
  - unfold eligible. apply Forall_forall. intros x [_ Hx]%list_elem_of_filter.
    pose proof (clean_sentences _ (clean_normalize _ Ht)) as Hall.
    rewrite Forall_forall in Hall. apply Hall, Hx.
Qed.

(** * Further properties of utils.py *)

Lemma concat_chunks ws : concat (chunks ws) = ws.
Proof.
  induction ws as [|w ws IH]; [reflexivity|]. simpl.
  destruct (ends_term w); [simpl; by rewrite IH|].
  destruct (chunks ws) as [|g gs]; simpl in *; by rewrite <- IH.
Qed.

Lemma runs_nil P s : runs P s = [] ↔ Forall (λ c, P c = false) s.
Proof.
  induction s as [|c rest IH]; [split; [constructor|done]|].
  destruct (P c) eqn:Hc.
  - split.
    + intros H. by apply runs_head_nonnil in H.
    + inversion 1; congruence.
  - rewrite runs_skip by exact Hc. rewrite IH. split; [by constructor|].
    by inversion 1.
Qed.

Lemma unwords_sentences t : unwords (split_sentences t) = normalize_whitespace t.
Proof.
  rewrite split_sentences_chunks, normalize_whitespace_words.
  rewrite unwords_concat by apply well_chunked_nonempty, well_chunked_chunks.
  by rewrite concat_chunks.
Qed.

Lemma last_unwords pre w : w ≠ [] → last (unwords (pre ++ [w])) = last w.
Proof.
  intros Hw. induction pre as [|p pre IH]; [reflexivity|].
  change ((p :: pre) ++ [w]) with (p :: (pre ++ [w])).
  destruct (pre ++ [w]) as [|q qs] eqn:Hq; [by destruct pre|].
  rewrite join_cons, !last_app, IH.
  destruct (last w) eqn:Hl; [reflexivity|].
  apply last_None in Hl. done.
Qed.

Lemma well_chunked_lookup gs i g :
  well_chunked gs → gs !! i = Some g →
  ∃ pre w, g = pre ++ [w]
           ∧ (S i < length gs → ends_term w = true).
Proof.
  intros Hwc. revert i. induction Hwc as [|pre w gs Hpre Hw Hgs IH]; intros i Hi.
  - by rewrite lookup_nil in Hi.
  - destruct i as [|i]; simpl in Hi.
    + injection Hi as <-. exists pre, w. split; [done|].
      intros Hlen. apply Hw. destruct gs; [simpl in Hlen; lia|done].
    + destruct (IH i Hi) as (pre' & w' & -> & Hend).
      exists pre', w'. split; [done|]. intros Hlen. apply Hend. simpl in Hlen. lia.
Qed.

Lemma sublist_singleton {A} (x : A) (l : list A) : x ∈ l → sublist [x] l.
Proof.
  induction 1 as [x l|x y l Hx IH].
  - apply sublist_skip, sublist_nil_l.
  - by apply sublist_cons.
Qed.

(** X1. [normalize_whitespace(text)] is [" ".join(text.split())]: the
    whitespace-separated words of the text joined by single spaces. *)
Theorem normalize_whitespace_join_split (text : str) :
  normalize_whitespace text = join [space] (split_ws text).
Proof. apply normalize_whitespace_words. Qed.

(** X2. [normalize_whitespace] is idempotent. *)
Theorem normalize_whitespace_idempotent (text : str) :
  normalize_whitespace (normalize_whitespace text) = normalize_whitespace text.
Proof. apply normalize_whitespace_idem. Qed.

(** X3. The sentences of a text joined by single spaces give back the
    normalized text: segmentation loses nothing but whitespace. *)
Theorem split_sentences_join (text : str) :
  join [space] (split_sentences text) = normalize_whitespace text.
Proof. apply unwords_sentences. Qed.

(** X4. Every sentence of [split_sentences] is non-empty, carries no
    whitespace at its ends, is normalized and is one sentence by itself;
    every sentence but the last ends with [.], [!] or [?]. *)
Theorem split_sentences_shape (text : str) (i : nat) (s : str) :
  split_sentences text !! i = Some s →
  s ≠ []
  ∧ strip s = s
  ∧ normalize_whitespace s = s
  ∧ split_sentences s = [s]
  ∧ (S i < length (split_sentences text) →
     from_option is_terminator false (last s) = true).
Proof.
  intros Hi.
  assert (Hin : s ∈ split_sentences text) by (eapply list_elem_of_lookup_2, Hi).
  pose proof (split_sentences_rejoin text [s] (sublist_singleton _ _ Hin)) as Hone.
  simpl in Hone.
  rewrite split_sentences_chunks in Hi.
  rewrite (split_sentences_chunks text), length_fmap.
  rewrite list_lookup_fmap in Hi.
  destruct (chunks (split_ws text) !! i) as [g|] eqn:Hg; [|done].
  injection Hi as <-.
  pose proof (chunks_groups _ (split_ws_words text)) as Hall.
  rewrite Forall_forall in Hall.
  destruct (Hall g (list_elem_of_lookup_2 _ _ _ Hg)) as [Hne Hwords].
  destruct (well_chunked_lookup _ _ _ (well_chunked_chunks _) Hg)
    as (pre & w & -> & Hend).
  assert (Hw : word w).
  { rewrite Forall_forall in Hwords. apply Hwords, elem_of_app. right. by left. }
  split; [|split; [|split; [|split]]].
  - destruct pre as [|p pre]; [apply Hw|].
    apply Forall_cons in Hwords as [[Hp _] _].
    apply (unwords_nonempty p (pre ++ [w]) Hp).
  - by apply strip_unwords.
  - rewrite normalize_whitespace_words. by rewrite split_ws_unwords.
  - exact Hone.
  - intros Hlen. rewrite last_unwords by apply Hw. by apply Hend.
Qed.

Lemma split_sentences_shape_witness :
  lit "Dogs bark!" ≠ []
  ∧ strip (lit "Dogs bark!") = lit "Dogs bark!"
  ∧ normalize_whitespace (lit "Dogs bark!") = lit "Dogs bark!"
  ∧ split_sentences (lit "Dogs bark!") = [lit "Dogs bark!"]
  ∧ (2 < length (split_sentences (lit "Cats purr.  Dogs bark!   Birds sing")) →
     from_option is_terminator false (last (lit "Dogs bark!")) = true).
Proof.
  apply (split_sentences_shape (lit "Cats purr.  Dogs bark!   Birds sing") 1).
  by vm_compute.
Defined.

(** X5. A text has no sentence exactly when it consists of whitespace
    only. *)
Theorem split_sentences_nil_iff (text : str) :
  split_sentences text = [] ↔ Forall (λ c, is_space c = true) text.
Proof.
  rewrite split_sentences_chunks. unfold split_ws.
  assert (H : runs (λ c, negb (is_space c)) text = []
              ↔ Forall (λ c, is_space c = true) text).
  { rewrite runs_nil. apply Forall_proper; [|done].
    intros c. by destruct (is_space c). }
  rewrite <- H. destruct (runs _ text) as [|w ws] eqn:Hr; [done|].
  split; [|done]. intros Hnil. apply fmap_nil_inv in Hnil.
  by apply chunks_nonnil in Hnil.
Qed.

Lemma occurrences_cons w x l :
  occurrences w (x :: l) = (if decide (x = w) then 1 else 0) + occurrences w l.
Proof. unfold occurrences. rewrite filter_cons. by destruct (decide (x = w)). Qed.

Lemma occurrences_app w l1 l2 :
  occurrences w (l1 ++ l2) = occurrences w l1 + occurrences w l2.
Proof. unfold occurrences. by rewrite filter_app, length_app. Qed.

Lemma count_tokens_lookup tokens freqs w :
  default 0 (count_tokens tokens freqs !! w)
  = default 0 (freqs !! w) + (if skipped w then 0 else occurrences w tokens).
Proof.
  revert freqs. induction tokens as [|t tokens IH]; intros freqs; simpl.
  - destruct (skipped w); unfold occurrences; simpl; lia.
  - rewrite occurrences_cons. destruct (skipped t) eqn:Ht.
    + rewrite IH. destruct (skipped w) eqn:Hw; [done|].
      rewrite decide_False by congruence. done.
    + rewrite IH. destruct (decide (t = w)) as [->|Hne].
      * rewrite lookup_insert_eq, Ht. simpl. lia.
      * rewrite lookup_insert_ne by done. destruct (skipped w); lia.
Qed.

Lemma count_tokens_positive tokens freqs :
  (∀ w, freqs !! w ≠ Some 0) → ∀ w, count_tokens tokens freqs !! w ≠ Some 0.
Proof.
  revert freqs. induction tokens as [|t tokens IH]; intros freqs H; simpl; [done|].
  destruct (skipped t); [by apply IH|]. apply IH. intros w.
  destruct (decide (t = w)) as [->|Hne].
  - rewrite lookup_insert_eq. intros [= Hz]. lia.
  - by rewrite lookup_insert_ne.
Qed.

Lemma count_sentences_lookup ss freqs w :
  default 0 (count_sentences ss freqs !! w)
  = default 0 (freqs !! w) + (if skipped w then 0 else occurrences w (all_tokens ss)).
Proof.
  revert freqs. induction ss as [|s ss IH]; intros freqs; simpl.
  - destruct (skipped w); unfold occurrences; simpl; lia.
  - rewrite IH, count_tokens_lookup.
    change (all_tokens (s :: ss)) with (findall_word (lower s) ++ all_tokens ss).
    rewrite occurrences_app. destruct (skipped w); lia.
Qed.

Lemma count_sentences_positive ss freqs :
  (∀ w, freqs !! w ≠ Some 0) → ∀ w, count_sentences ss freqs !! w ≠ Some 0.
Proof.
  revert freqs. induction ss as [|s ss IH]; intros freqs H; simpl; [done|].
  by apply IH, count_tokens_positive.
Qed.

(** X6. The frequency table maps a lower-cased token to the number of its
    occurrences in the sentences, and holds no stopword, no token of at most
    two characters and no token that does not occur. *)
Theorem word_frequencies_count (sentences : list str) (w : str) :
  _build_word_frequencies sentences !! w =
    if skipped w then None
    else match occurrences w (all_tokens sentences) with
         | 0 => None
         | S n => Some (S n)
         end.
Proof.
  unfold _build_word_frequencies.
  pose proof (count_sentences_lookup sentences ∅ w) as Hc.
  pose proof (count_sentences_positive sentences ∅) as Hp.
  specialize (Hp ltac:(intros w'; by rewrite lookup_empty) w).
  rewrite lookup_empty in Hc. simpl in Hc.
  destruct (count_sentences sentences ∅ !! w) as [[|n]|] eqn:Hl; [done| |];
    simpl in Hc; destruct (skipped w); try lia;
    destruct (occurrences w (all_tokens sentences)); try lia; congruence.
Qed.

Lemma slice_to_length_formula {A} (n : Z) (l : list A) :
  length (slice_to n l) =
    if decide (0 ≤ n)%Z then Z.to_nat n `min` length l
    else length l - Z.to_nat (- n).
Proof.
  unfold slice_to. destruct (decide (0 ≤ n)%Z); rewrite length_take; lia.
Qed.

(** Every path of [summarize_text] joins as many sentences as the slice
    [sentences[:max_sentences]] has. *)
Lemma summarize_text_selection_exact text n :
  ∃ sel, summarize_text text n = unwords sel
         ∧ sublist sel (split_sentences text)
         ∧ length sel = length (slice_to n (split_sentences text)).
Proof.
  rewrite summarize_text_unfold. cbv zeta.
  destruct (split_sentences text) as [|s ss] eqn:Hss.
  { exists []. split; [done|]. split; [done|].
    rewrite slice_to_length_formula. destruct (decide (0 ≤ n)%Z); simpl; lia. }
  rewrite <- Hss. clear s ss Hss. set (ss := split_sentences text).
  destruct (decide (Z.of_nat (length ss) ≤ n)%Z) as [Hle|Hgt].
  { exists ss. split; [done|]. split; [done|].
    rewrite slice_to_length_formula. rewrite decide_True by lia. lia. }
  destruct (decide (_build_word_frequencies ss = ∅)) as [He|Hne].
  - exists (slice_to n ss). split; [done|]. split; [|done].
    destruct (slice_to_take n ss) as [k ->]. apply sublist_take.
  - exists (sentence <$> select_top (_build_word_frequencies ss) ss n).
    split; [done|]. split.
    + pose proof (fmap_sublist sentence _ _
        (select_top_sublist (_build_word_frequencies ss) ss n)) as H.
      rewrite score_from_sentences in H. exact H.
    + rewrite length_fmap. unfold select_top, sort_by_idx.
      rewrite sort_by_perm, !slice_to_length_formula.
      assert (length (sort_by_score_desc
                (score_from (_build_word_frequencies ss) 0 ss)) = length ss) as ->;
        [|done].
      unfold sort_by_score_desc. by rewrite sort_by_perm, score_from_length.
Qed.

(** X7. The summary segments into sentences of the text, taken in their
    order, and into as many of them as the bound allows: the smaller of
    [max_sentences] and the number of sentences when the bound is not
    negative, and the number of sentences less [-max_sentences] when it is. *)
Theorem summary_sentence_count (text : str) (max_sentences : Z) :
  let sentences := split_sentences text in
  let summary := split_sentences (summarize_text text max_sentences) in
  summarize_text text max_sentences = join [space] summary
  ∧ sublist summary sentences
  ∧ length summary =
      if decide (0 ≤ max_sentences)%Z
      then Z.to_nat max_sentences `min` length sentences
      else length sentences - Z.to_nat (- max_sentences).
Proof.
  intros ss summary. subst ss summary.
  destruct (summarize_text_selection_exact text max_sentences)
    as (sel & -> & Hsub & Hlen).
  rewrite (split_sentences_rejoin _ _ Hsub).
  split; [done|]. split; [done|].
  by rewrite Hlen, slice_to_length_formula.
Qed.

Lemma sub_ws_length b t : length (sub_ws b t) ≤ length t.
Proof.
  revert b. induction t as [|c t IH]; intros b; simpl; [lia|].
  pose proof (IH true). pose proof (IH false).
  destruct (is_space c); [destruct b|]; simpl; lia.
Qed.

Lemma lstrip_length s : length (lstrip s) ≤ length s.
Proof. induction s as [|c s IH]; simpl; [lia|]. destruct (is_space c); simpl; lia. Qed.

Lemma rstrip_length s : length (rstrip s) ≤ length s.
Proof.
  induction s as [|c s IH]; simpl; [lia|].
  destruct (rstrip s); [destruct (is_space c)|]; simpl in *; lia.
Qed.

Lemma normalize_whitespace_length t : length (normalize_whitespace t) ≤ length t.
Proof.
  unfold normalize_whitespace, strip.
  pose proof (rstrip_length (lstrip (sub_ws false t))).
  pose proof (lstrip_length (sub_ws false t)).
  pose proof (sub_ws_length false t). lia.
Qed.

Lemma unwords_sublist_length l k :
  sublist l k → length (unwords l) ≤ length (unwords k).
Proof.
  induction 1 as [|x l k Hsub IH|x l k Hsub IH]; [done| |].
  - destruct l as [|y l]; destruct k as [|z k].
    + done.
    + rewrite join_cons, length_app. simpl. lia.
    + by apply sublist_nil_r in Hsub.
    + rewrite !join_cons, !length_app. lia.
  - destruct k as [|z k]; [apply sublist_nil_r in Hsub as ->; simpl; lia|].
    rewrite join_cons, !length_app. lia.
Qed.

(** X8. A summary is never longer than the text, nor than the normalized
    text. *)
Theorem summary_not_longer (text : str) (max_sentences : Z) :
  length (summarize_text text max_sentences) ≤ length (normalize_whitespace text)
  ∧ length (summarize_text text max_sentences) ≤ length text.
Proof.
  destruct (summarize_text_selection text max_sentences) as (sel & -> & Hsub & _).
  pose proof (unwords_sublist_length _ _ Hsub) as H.
  rewrite unwords_sentences in H.
  pose proof (normalize_whitespace_length text). lia.
Qed.

(** X9. The summary depends on the text through its whitespace-separated
    words only; in particular it is the same for a text and for the
    normalized text. *)
Theorem summary_depends_on_words (text text' : str) (max_sentences : Z) :
  split_ws text = split_ws text' →
  summarize_text text max_sentences = summarize_text text' max_sentences
  ∧ summarize_text (normalize_whitespace text) max_sentences
    = summarize_text text max_sentences.
Proof.
  intros H. split.
  - unfold summarize_text. by rewrite !normalize_whitespace_words, H.
  - unfold summarize_text. by rewrite normalize_whitespace_idem.
Qed.

Lemma summary_depends_on_words_witness :
  summarize_text (lit "  Cats purr.   Dogs  bark. ") 1
  = summarize_text (lit "Cats purr. Dogs bark.") 1
  ∧ summarize_text (normalize_whitespace (lit "  Cats purr.   Dogs  bark. ")) 1
    = summarize_text (lit "  Cats purr.   Dogs  bark. ") 1.
Proof. apply summary_depends_on_words. by vm_compute. Defined.

(** * Further properties of the loaders, summarizer.py and main.py *)

(** X10. [load_text_from_path] leaves the file system alone exactly when
    the extension of the path is neither [.txt] nor [.pdf] up to case, and
    then it raises [ValueError]. *)
Theorem load_unsupported_type (w : world) (path : str) :
  let ext := lower (snd (splitext path)) in
  ((load_text_from_path w path).2 = [] ↔ ext ≠ lit ".txt" ∧ ext ≠ lit ".pdf")
  ∧ (ext ≠ lit ".txt" → ext ≠ lit ".pdf" →
     (load_text_from_path w path).1
     = Raise (ValueError (lit "Unsupported file type: " ++ ext
                          ++ lit ". Expected .txt or .pdf."))).
Proof.
  intros ext. unfold load_text_from_path. fold ext. split.
  - destruct (decide (ext = lit ".txt")) as [He|He].
    { unfold read_text_file. destruct (path_exists w path); simpl; split;
        [done|by intros [? _]|done|by intros [? _]]. }
    destruct (decide (ext = lit ".pdf")) as [He'|He'].
    { unfold read_pdf_file. destruct (path_exists w path);
        [destruct (pdf_page_texts w path)|]; simpl; split;
        solve [done|by intros [_ ?]]. }
    simpl. done.
  - intros H1 H2. by rewrite !decide_False.
Qed.

(** X11. A missing file is never opened: [summarize_file] and
    [generate_mcqs_from_file] raise, and the only access to the file system
    they may have made is the existence check. *)
Theorem missing_file_not_opened (w : world) (path length : str) (fuel : nat)
    (k : Z) (t : Random.tape) :
  path_exists w path = false →
  (∃ e, (summarize_file w path length).1 = Raise e)
  ∧ (summarize_file w path length).2 ⊆ [Exists path]
  ∧ (∃ e, (generate_mcqs_from_file w fuel path k t).1 = Raise e)
  ∧ (generate_mcqs_from_file w fuel path k t).2 ⊆ [Exists path].
Proof.
  intros Hmiss.
  assert (Hload : ∃ e evs, load_text_from_path w path = (Raise e, evs)
                           ∧ evs ⊆ [Exists path]).
  { unfold load_text_from_path, read_text_file, read_pdf_file. rewrite Hmiss.
    repeat case_decide; eexists _, _; (split; [reflexivity|set_solver]). }
  destruct Hload as (e & evs & Hload & Hevs).
  unfold summarize_file, generate_mcqs_from_file. rewrite Hload.
  destruct (SUMMARY_SENTENCE_MAP !! length); simpl;
    (split; [eauto|]); (split; [set_solver|]); (split; [eauto|done]).
Qed.

Lemma missing_file_not_opened_witness :
  (∃ e, (summarize_file empty_world (lit "notes.txt") (lit "short")).1 = Raise e)
  ∧ (summarize_file empty_world (lit "notes.txt") (lit "short")).2
    ⊆ [Exists (lit "notes.txt")]
  ∧ (∃ e, (generate_mcqs_from_file empty_world 3 (lit "notes.txt") 5 []).1 = Raise e)
  ∧ (generate_mcqs_from_file empty_world 3 (lit "notes.txt") 5 []).2
    ⊆ [Exists (lit "notes.txt")].
Proof. by apply missing_file_not_opened. Defined.




(** * Further properties of quiz_generator.py *)

Lemma lower_length s : length (lower s) = length s.
Proof. apply length_fmap. Qed.

Lemma match_literal_spec pat s rest :
  match_literal pat s = Some rest →
  ∃ m, s = m ++ rest ∧ lower m = lower pat.
Proof.
  revert s. induction pat as [|p pat IH]; intros s; simpl.
  - intros [= ->]. by exists [].
  - destruct s as [|c s]; [done|]. case_decide as Hc; [|done].
    intros (m & -> & Hm)%IH. exists (c :: m). split; [done|].
    simpl. by rewrite Hm, Hc.
Qed.

Lemma match_literal_self w post : match_literal w (w ++ post) = Some post.
Proof.
  induction w as [|c w IH]; [by destruct post|]. simpl. by rewrite decide_True.
Qed.

(** Where [sub_first] changes the string, it blanks a factor equal to the
    answer up to case. *)
Lemma sub_first_spec answer prev s :
  sub_first answer prev s = s
  ∨ ∃ pre m post, s = pre ++ m ++ post ∧ lower m = lower answer
                  ∧ sub_first answer prev s = pre ++ BLANK ++ post.
Proof.
  revert prev. induction s as [|c s IH]; intros prev.
  - cbn [sub_first]. destruct (match_at answer prev []) as [rest|] eqn:Hm; [|by left].
    right. unfold match_at in Hm. destruct (boundary prev (head [])); [|done].
    destruct (match_literal answer []) as [rest'|] eqn:Hl; [|done].
    destruct (boundary _ _); [|done]. injection Hm as <-.
    apply match_literal_spec in Hl as (m & Hs & Hlow). exists [], m, rest'. done.
  - cbn [sub_first]. destruct (match_at answer prev (c :: s)) as [rest|] eqn:Hm.
    + right. unfold match_at in Hm. destruct (boundary prev _); [|done].
      destruct (match_literal answer (c :: s)) as [rest'|] eqn:Hl; [|done].
      destruct (boundary _ _); [|done]. injection Hm as <-.
      apply match_literal_spec in Hl as (m & Hs & Hlow). exists [], m, rest'. done.
    + destruct (IH (Some c)) as [->|(pre & m & post & -> & Hlow & ->)]; [by left|].
      right. exists (c :: pre), m, post. done.
Qed.

(** The position of a run in its string: the runs before it lie in [pre]. *)
Lemma runs_lookup P s i w :
  runs P s !! i = Some w →
  ∃ pre post, s = pre ++ w ++ post
              ∧ length (runs P pre) = i
              ∧ from_option P false (last pre) = false
              ∧ from_option P false (head post) = false.
Proof.
  revert i w. induction s as [|c rest IH]; intros i w Hi; [by destruct i|].
  rewrite runs_cons in Hi. destruct (P c) eqn:Hc.
  - destruct rest as [|c' rest'].
    { destruct i; [|done]. injection Hi as <-. by exists [], []. }
    destruct (P c') eqn:Hc'.
    + pose proof (runs_head_nonnil P c' rest' Hc') as Hne.
      destruct (runs P (c' :: rest')) as [|w' ws'] eqn:Hr; [done|].
      destruct i as [|i]; simpl in Hi.
      * injection Hi as <-.
        destruct (IH 0 w' eq_refl) as (pre & post & Hs & Hlen & Hl & Hh).
        destruct pre as [|p pre].
        -- exists [], post. simpl in *. by rewrite Hs.
        -- exfalso. apply length_zero_iff_nil, runs_nil in Hlen.
           apply Forall_cons in Hlen as [Hp _]. simpl in Hs.
           injection Hs as <- _. congruence.
      * destruct (IH (S i) w Hi) as (pre & post & Hs & Hlen & Hl & Hh).
        destruct pre as [|p pre]; [done|].
        exists (c :: p :: pre), post. split; [by rewrite Hs|].
        simpl in Hs. injection Hs as <- Hs.
        split; [|split; [exact Hl|exact Hh]].
        rewrite runs_cons, Hc, Hc'.
        destruct (runs P (c' :: pre)); [done|]. simpl in *. lia.
    + destruct i as [|i]; simpl in Hi.
      * injection Hi as <-. exists [], (c' :: rest'). simpl. by rewrite Hc'.
      * destruct (IH i w Hi) as (pre & post & Hs & Hlen & Hl & Hh).
        destruct pre as [|p pre].
        -- exfalso. simpl in Hs.
           pose proof (runs_nonempty P (c' :: rest')) as Hn.
           pose proof (runs_all P (c' :: rest')) as Ha.
           rewrite Forall_forall in Hn, Ha.
           pose proof (list_elem_of_lookup_2 _ _ _ Hi) as Hin.
           specialize (Hn w Hin). specialize (Ha w Hin).
           destruct w as [|x w]; [done|]. apply Forall_cons in Ha as [Hx _].
           simpl in Hs. injection Hs as <- _. congruence.
        -- exists (c :: p :: pre), post. split; [by rewrite Hs|].
           simpl in Hs. injection Hs as <- Hs.
           split; [|split; [exact Hl|exact Hh]].
           rewrite runs_cons, Hc, Hc'. cbn [length]. by rewrite Hlen.
  - destruct (IH i w Hi) as (pre & post & Hs & Hlen & Hl & Hh).
    exists (c :: pre), post. split; [by rewrite Hs|].
    split; [by rewrite runs_skip|]. split; [|exact Hh].
    destruct pre as [|p pre]; [simpl; exact Hc|exact Hl].
Qed.

(** A token of the sentence is found by the pattern, at its own position
    or before. *)
Lemma sub_first_token w pre post prev :
  w ≠ [] → Forall (λ c, is_word c = true) w →
  from_option is_word false (match last pre with Some c => Some c | None => prev end)
  = false →
  from_option is_word false (head post) = false →
  ∃ pre0 m post0,
    pre ++ w ++ post = pre0 ++ m ++ post0 ∧ lower m = lower w
    ∧ sub_first w prev (pre ++ w ++ post) = pre0 ++ BLANK ++ post0.
Proof.
  intros Hne Hw. revert prev. induction pre as [|c pre IH]; intros prev Hprev Hpost.
  - exists [], w, post. split; [done|]. split; [done|].
    simpl in Hprev. simpl app.
    assert (Hm : match_at w prev (w ++ post) = Some post).
    { unfold match_at. rewrite match_literal_self.
      destruct w as [|x w]; [done|].
      pose proof Hw as Hw'. apply Forall_cons in Hw' as [Hx _].
      unfold boundary at 1. simpl head. simpl from_option at 2.
      rewrite Hprev, Hx. simpl xorb.
      rewrite take_app_length.
      destruct (last (x :: w)) as [l|] eqn:Hl; [|by apply last_None in Hl].
      assert (is_word l = true) as Hlw.
      { rewrite Forall_forall in Hw. apply Hw. apply last_Some in Hl as [l' ->].
        apply elem_of_app. right. by left. }
      unfold boundary. simpl from_option at 1. by rewrite Hlw, Hpost. }
    destruct w as [|x w]; [done|]. simpl app in *.
    cbn [sub_first]. by rewrite Hm.
  - change ((c :: pre) ++ w ++ post) with (c :: (pre ++ w ++ post)).
    cbn [sub_first].
    destruct (match_at w prev (c :: pre ++ w ++ post)) as [rest|] eqn:Hm.
    + unfold match_at in Hm. destruct (boundary prev _); [|done].
      destruct (match_literal w (c :: pre ++ w ++ post)) as [rest'|] eqn:Hl; [|done].
      destruct (boundary _ _); [|done]. injection Hm as <-.
      apply match_literal_spec in Hl as (m & Hs & Hlow). exists [], m, rest'. done.
    + destruct (IH (Some c)) as (pre0 & m & post0 & Hs & Hlow & Hsub).
      * destruct pre as [|p pre]; [exact Hprev|].
        change (last (c :: p :: pre)) with (last (p :: pre)) in Hprev.
        destruct (last (p :: pre)) eqn:Hlast; [exact Hprev|].
        by apply last_None in Hlast.
      * exact Hpost.
      * exists (c :: pre0), m, post0. rewrite Hsub, Hs. done.
Qed.

(** The question built for a token of the sentence blanks a factor equal to
    the token up to case. *)
Lemma build_question_token sentence answer :
  answer ∈ findall_word sentence →
  ∃ pre m post,
    sentence = pre ++ m ++ post ∧ lower m = lower answer
    ∧ _build_question sentence answer = pre ++ BLANK ++ post.
Proof.
  intros (i & Hi)%list_elem_of_lookup_1.
  pose proof (list_elem_of_lookup_2 _ _ _ Hi) as Hin.
  pose proof (runs_nonempty is_word sentence) as Hne.
  pose proof (runs_all is_word sentence) as Hall.
  rewrite Forall_forall in Hne, Hall.
  destruct (runs_lookup _ _ _ _ Hi) as (pre & post & Hs & _ & Hl & Hh).
  destruct (sub_first_token answer pre post None (Hne _ Hin) (Hall _ Hin))
    as (pre0 & m & post0 & Hs' & Hlow & Hsub).
  { by destruct (last pre). }
  { exact Hh. }
  exists pre0, m, post0. unfold _build_question. by rewrite Hs, Hsub, Hs'.
Qed.

(** X13. For an answer that is a token of the sentence, [_build_question]
    replaces one factor of the sentence, equal to the answer up to case, by
    the blank; the question is as long as the sentence with four characters
    for the answer, and it is the sentence itself only for the answer
    [____]. *)
Theorem build_question_blanks_answer (sentence answer : str) :
  answer ∈ findall_word sentence →
  (∃ pre m post,
     sentence = pre ++ m ++ post ∧ lower m = lower answer
     ∧ _build_question sentence answer = pre ++ BLANK ++ post)
  ∧ length (_build_question sentence answer) + length answer
    = length sentence + 4
  ∧ (_build_question sentence answer = sentence → lower answer = BLANK).
Proof.
  intros (pre & m & post & Hs & Hlow & Hq)%build_question_token.
  assert (Hlen : length m = length answer)
    by (by rewrite <- (lower_length m), Hlow, lower_length).
  split; [by exists pre, m, post|]. rewrite Hq, Hs. split.
  - rewrite !length_app, Hlen. simpl. lia.
  - intros Heq. apply app_inv_head, app_inv_tail in Heq.
    rewrite <- Hlow, <- Heq. done.
Qed.

Lemma build_question_blanks_answer_witness :
  (∃ pre m post,
     lit "The CAT likes a cat." = pre ++ m ++ post ∧ lower m = lower (lit "cat")
     ∧ _build_question (lit "The CAT likes a cat.") (lit "cat")
       = pre ++ BLANK ++ post)
  ∧ length (_build_question (lit "The CAT likes a cat.") (lit "cat"))
    + length (lit "cat") = length (lit "The CAT likes a cat.") + 4
  ∧ (_build_question (lit "The CAT likes a cat.") (lit "cat")
     = lit "The CAT likes a cat." → lower (lit "cat") = BLANK).
Proof.
  apply build_question_blanks_answer.
  apply (list_elem_of_lookup_2 _ 4). by vm_compute.
Defined.

(** What the vocabulary scan of [_build_distractors] appends: tokens of the
    vocabulary in their order, each a content word unseen before; and when
    the scan ends below [k], every content word of the vocabulary is in
    [seen]. *)
Lemma scan_vocabulary_spec k vocabulary d seen d' seen' :
  scan_vocabulary k vocabulary d seen = (d', seen') →
  ∃ picked,
    d' = d ++ picked
    ∧ sublist picked vocabulary
    ∧ seen' = list_to_set (lower <$> picked) ∪ seen
    ∧ Forall (λ v, content_word v ∧ lower v ∉ seen) picked
    ∧ (length d < k → length d' ≤ k)
    ∧ (length d' < k → ∀ v, v ∈ vocabulary → content_word v → lower v ∈ seen').
Proof.
  revert d seen. induction vocabulary as [|token rest IH]; intros d seen; simpl.
  - intros [= <- <-]. exists []. rewrite app_nil_r.
    split_and!; [done|done|simpl; by rewrite (left_id_L ∅ (∪))|constructor|lia|].
    intros _ v Hv. by apply elem_of_nil in Hv.
  - assert (Hskip : (lower token ∈ seen ∨ ¬ content_word token) →
      scan_vocabulary k rest d seen = (d', seen') →
      ∃ picked,
        d' = d ++ picked ∧ sublist picked (token :: rest)
        ∧ seen' = list_to_set (lower <$> picked) ∪ seen
        ∧ Forall (λ v, content_word v ∧ lower v ∉ seen) picked
        ∧ (length d < k → length d' ≤ k)
        ∧ (length d' < k →
           ∀ v, v ∈ token :: rest → content_word v → lower v ∈ seen')).
    { intros Hwhy (picked & -> & Hsub & -> & Hall & Hlen & Hdone)%IH.
      exists picked. split_and!; [done|by apply sublist_cons|done|done|done|].
      intros Hlt v [->|Hv]%elem_of_cons Hcw; [|by apply Hdone].
      destruct Hwhy as [Hin|Hno]; [set_solver|done]. }
    case_bool_decide as Hseen; [apply Hskip; by left|].
    destruct (bool_decide (length token ≤ 3) || bool_decide (lower token ∈ STOPWORDS))
      eqn:Hbad.
    { apply Hskip. right. intros [Hl Hs].
      apply orb_true_iff in Hbad as [Hb|Hb]; apply bool_decide_eq_true in Hb;
        [lia|done]. }
    apply orb_false_iff in Hbad as [Hb1 Hb2].
    apply bool_decide_eq_false in Hb1, Hb2.
    assert (Hcw : content_word token) by (split; [lia|done]).
    case_bool_decide as Hk.
    + intros [= <- <-]. exists [token]. split_and!.
      * done.
      * apply sublist_skip, sublist_nil_l.
      * simpl. by rewrite (right_id_L ∅ (∪)).
      * constructor; [by split|constructor].
      * rewrite length_app. simpl. lia.
      * lia.
    + intros (picked & -> & Hsub & -> & Hall & Hlen & Hdone)%IH.
      exists (token :: picked). split_and!.
      * by rewrite <- app_assoc.
      * by apply sublist_skip.
      * simpl. rewrite !(assoc_L (∪)). f_equal. apply (comm_L (∪)).
      * constructor; [done|]. eapply Forall_impl; [exact Hall|].
        intros v [? ?]. split; [done|set_solver].
      * intros _. apply Hlen. rewrite length_app in *. simpl in *. lia.
      * intros Hlt v [->|Hv]%elem_of_cons Hcv; [set_solver|by apply Hdone].
Qed.

(** What the [while] loop appends, when it ends: synthetic distractors,
    up to exactly [k] distractors. *)
Lemma synthesize_spec fuel answer d seen d' :
  synthesize fuel answer 3 d seen = Some d' →
  ∃ syn, d' = d ++ syn
         ∧ Forall (synthetic_for answer) syn
         ∧ (length d ≤ 3 → length d' = 3)
         ∧ (3 ≤ length d → syn = []).
Proof.
  revert d seen. induction fuel as [|fuel IH]; intros d seen; simpl.
  - case_bool_decide; [done|]. intros [= <-]. exists []. rewrite app_nil_r.
    split_and!; [done|constructor|lia|done].
  - case_bool_decide as Hlt.
    + case_bool_decide.
      * intros (syn & -> & Hsyn & Hlen & _)%IH.
        exists ((take 3 answer ++ str_of_nat (length d + 1)) :: syn).
        split_and!; [by rewrite <- app_assoc| | |lia].
        -- constructor; [|done]. exists (length d + 1). split; [lia|done].
        -- intros _. apply Hlen. rewrite length_app. simpl. lia.
      * intros (syn & -> & Hsyn & Hlen & Hnil)%IH. exists syn.
        split_and!; [done|done|done|lia].
    + intros [= <-]. exists []. rewrite app_nil_r.
      split_and!; [done|constructor|lia|done].
Qed.

(** The distractors, when [_build_distractors] returns. *)
Lemma build_distractors_structure_aux fuel answer vocabulary ds :
  _build_distractors fuel answer vocabulary 3 = Some ds →
  ∃ picked syn,
    ds = picked ++ syn
    ∧ Forall (λ v, content_word v ∧ lower v ≠ lower answer) picked
    ∧ Forall (synthetic_for answer) syn.
Proof.
  unfold _build_distractors.
  destruct (scan_vocabulary 3 vocabulary [] {[lower answer]}) as [d seen] eqn:Hscan.
  apply scan_vocabulary_spec in Hscan
    as (picked & -> & Hsub & -> & Hall & Hlen & Hdone).
  destruct (synthesize fuel answer 3 ([] ++ picked) _) as [d'|] eqn:Hsyn; [|done].
  simpl. intros [= <-].
  apply synthesize_spec in Hsyn as (syn & -> & Hsyn & Hlen' & Hnil).
  simpl in *. specialize (Hlen ltac:(lia)). specialize (Hlen' Hlen).
  rewrite firstn_all2 by lia.
  exists picked, syn. split_and!; [done| |done].
  eapply Forall_impl; [exact Hall|]. intros v [? Hv]. split; [done|].
  intros Heq. apply Hv, elem_of_singleton. exact Heq.
Qed.

(** X14. The distractors returned by [_build_distractors] are tokens of the
    vocabulary, in the order of the vocabulary and each a content word that
    differs from the answer up to case, followed by synthetic distractors;
    a synthetic distractor is made only when every content word of the
    vocabulary is the answer or one of the chosen tokens up to case. *)
Theorem build_distractors_structure (fuel : nat) (answer : str)
    (vocabulary ds : list str) :
  _build_distractors fuel answer vocabulary 3 = Some ds →
  ∃ picked syn,
    ds = picked ++ syn
    ∧ sublist picked vocabulary
    ∧ Forall (λ v, content_word v ∧ lower v ≠ lower answer) picked
    ∧ Forall (synthetic_for answer) syn
    ∧ (syn ≠ [] →
       ∀ v, v ∈ vocabulary → content_word v →
            lower v ∈ lower answer :: (lower <$> picked)).
Proof.
  unfold _build_distractors.
  destruct (scan_vocabulary 3 vocabulary [] {[lower answer]}) as [d seen] eqn:Hscan.
  apply scan_vocabulary_spec in Hscan
    as (picked & -> & Hsub & -> & Hall & Hlen & Hdone).
  destruct (synthesize fuel answer 3 ([] ++ picked) _) as [d'|] eqn:Hsyn; [|done].
  simpl. intros [= <-].
  apply synthesize_spec in Hsyn as (syn & -> & Hsyn & Hlen' & Hnil).
  simpl in *. specialize (Hlen ltac:(lia)). specialize (Hlen' Hlen).
  rewrite firstn_all2 by lia.
  exists picked, syn. split_and!; [done|done| |done|].
  - eapply Forall_impl; [exact Hall|]. intros v [? Hv]. split; [done|set_solver].
  - intros Hsn v Hv Hcw.
    assert (length picked < 3) as Hlt.
    { destruct (decide (length picked < 3)); [done|]. exfalso. apply Hsn, Hnil. lia. }
    specialize (Hdone Hlt v Hv Hcw).
    apply elem_of_union in Hdone as [Hd|Hd].
    + right. by apply elem_of_list_to_set in Hd.
    + apply elem_of_singleton in Hd as ->. left.
Qed.

Lemma build_distractors_structure_witness :
  ∃ picked syn,
    [lit "Birds"; lit "Cat2"; lit "Cat3"] = picked ++ syn
    ∧ sublist picked [lit "cats"; lit "the"; lit "Birds"; lit "BIRDS"]
    ∧ Forall (λ v, content_word v ∧ lower v ≠ lower (lit "Cats")) picked
    ∧ Forall (synthetic_for (lit "Cats")) syn
    ∧ (syn ≠ [] →
       ∀ v, v ∈ [lit "cats"; lit "the"; lit "Birds"; lit "BIRDS"] →
            content_word v →
            lower v ∈ lower (lit "Cats") :: (lower <$> picked)).
Proof.
  apply (build_distractors_structure 3 (lit "Cats")). by vm_compute.
Defined.



(** A property of every question the loop builds holds of every question it
    returns. *)
Lemma mcq_loop_each (Q : MCQ → Prop) fuel vocab k sentences :
  (∀ s a ds t i,
     s ∈ sentences → a ∈ findall_word s → content_word a →
     _build_question s a ≠ s →
     _build_distractors fuel a vocab 3 = Some ds →
     (Random.shuffle (ds ++ [a]) t).1 !! i = Some a →
     Q (mkMCQ (_build_question s a) (Random.shuffle (ds ++ [a]) t).1 i)) →
  ∀ mcqs used t res t',
    mcq_loop fuel vocab k sentences mcqs used t = Return (res, t') →
    Forall Q mcqs → Forall Q res.
Proof.
  induction sentences as [|s rest IH]; intros HQ mcqs used t res t' H Hall.
  { by injection H as <- _. }
  assert (IH' : ∀ mcqs used t,
    mcq_loop fuel vocab k rest mcqs used t = Return (res, t') →
    Forall Q mcqs → Forall Q res).
  { intros mcqs0 used0 t0. apply IH. intros s0 a ds t1 i Hs0.
    apply HQ. by right. }
  rewrite mcq_loop_cons in H.
  destruct (decide (k ≤ Z.of_nat (length mcqs))%Z); [by injection H as <- _|].
  apply bind_Return in H as (ans & t1 & Hsel & H).
  destruct ans as [a|]; [|by eapply IH'].
  destruct (truthy a); [|by eapply IH']. cbv zeta in H.
  destruct (decide (_build_question s a = s)) as [Hq|Hq]; [by eapply IH'|].
  apply select_answer_word_spec in Hsel as (Htok & Hlen & Hstop & Hused).
  apply bind_Return in H as (ds & t2 & Hds & H).
  unfold run_distractors in Hds.
  destruct (_build_distractors fuel a vocab 3) as [ds'|] eqn:Hbd; [|done].
  injection Hds as -> ->.
  apply bind_Return in H as (opts & t3 & Hsh & H).
  injection Hsh as Hsh. apply (f_equal fst) in Hsh. simpl in Hsh. subst opts.
  apply bind_Return in H as (i & t4 & Hidx & H).
  apply index_spec in Hidx as [Hi ->].
  eapply IH'; [exact H|]. apply Forall_app. split; [exact Hall|].
  constructor; [|constructor]. apply HQ; try done. by left.
Qed.

Lemma generate_each (Q : MCQ → Prop) fuel text k t mcqs t' :
  (∀ s a ds t i,
     s ∈ eligible text → a ∈ findall_word s → content_word a →
     _build_question s a ≠ s →
     (∃ vocab, _build_distractors fuel a vocab 3 = Some ds) →
     (Random.shuffle (ds ++ [a]) t).1 !! i = Some a →
     Q (mkMCQ (_build_question s a) (Random.shuffle (ds ++ [a]) t).1 i)) →
  generate_mcqs_from_text fuel text k t = Return (mcqs, t') →
  Forall Q mcqs.
Proof.
  intros HQ. unfold generate_mcqs_from_text. rewrite eligible_normalize.
  destruct (eligible text) as [|s ss] eqn:He; [intros [= <- _]; constructor|].
  intros H. eapply mcq_loop_each; [|exact H|constructor].
  intros s0 a ds t0 i Hs0 Ha Hcw Hq Hbd. apply HQ; eauto.
Qed.

Lemma stopwords_clean x : x ∈ STOPWORDS → clean x.
Proof.
  unfold STOPWORDS. rewrite elem_of_list_to_set. revert x. apply Forall_forall.
  repeat (constructor; [by vm_compute; repeat constructor|]). constructor.
Qed.

Lemma synthetic_content_word answer x :
  3 < length answer → synthetic_for answer x → content_word x.
Proof.
  intros Hlen (j & Hj & ->). split.
  - rewrite length_app, length_take.
    assert (length (str_of_nat j) = 1) as ->
      by (assert (j = 1 ∨ j = 2 ∨ j = 3) as [-> | [-> | ->]] by lia; reflexivity).
    lia.
  - intros Hin%stopwords_clean. by apply synthetic_not_clean in Hin.
Qed.

(** X16. On a text without the digits 1, 2 and 3, [generate_mcqs_from_text]
    returns for every count and every tape: the [while] loop of
    [_build_distractors] ends within three iterations and nothing raises. *)
Theorem generator_returns_without_digits (fuel : nat) (text : str) (k : Z)
    (t : Random.tape) :
  Forall (λ c, is_123 c = false) text → 3 ≤ fuel →
  ∃ mcqs t', generate_mcqs_from_text fuel text k t = Return (mcqs, t').
Proof. apply generate_returns. Qed.

Lemma generator_returns_without_digits_witness :
  ∃ mcqs t', generate_mcqs_from_text 3 sample_text 5 sample_tape = Return (mcqs, t').
Proof.
  apply generator_returns_without_digits; [|lia].
  refine (bool_decide_unpack _ _). by vm_compute.
Defined.

(** X17. Every option of every returned MCQ, the answer and the three
    distractors alike, has at least four characters and is no stopword. *)
Theorem options_are_content_words (fuel : nat) (text : str) (k : Z)
    (t : Random.tape) (mcqs : list MCQ) (t' : Random.tape) :
  generate_mcqs_from_text fuel text k t = Return (mcqs, t') →
  ∀ m o, m ∈ mcqs → o ∈ options m → 4 ≤ length o ∧ lower o ∉ STOPWORDS.
Proof.
  intros H m o Hm Ho.
  assert (Hall : Forall (λ m, Forall content_word (options m)) mcqs).
  { eapply generate_each; [|exact H].
    clear. intros s a ds t i _ _ Hcw _ [vocab Hbd] _. simpl.
    rewrite shuffle_perm. apply Forall_app.
    split; [|constructor; [exact Hcw|constructor]].
    apply build_distractors_structure_aux in Hbd as (picked & syn & -> & Hp & Hs).
    apply Forall_app. split.
    - eapply Forall_impl; [exact Hp|]. by intros v [? _].
    - eapply Forall_impl; [exact Hs|]. intros x. apply synthetic_content_word, Hcw. }
  rewrite Forall_forall in Hall. specialize (Hall m Hm).
  rewrite Forall_forall in Hall. destruct (Hall o Ho). split; [lia|done].
Qed.

Lemma options_are_content_words_witness :
  4 ≤ length (lit "Python") ∧ lower (lit "Python") ∉ STOPWORDS.
Proof.
  apply (options_are_content_words 3 sample_text 5 sample_tape sample_mcqs []
           sample_run sample_mcq).
  - apply (list_elem_of_lookup_2 _ 0). reflexivity.
  - apply (list_elem_of_lookup_2 _ 0). reflexivity.
Defined.

(** X18. Every returned question is an eligible sentence of the text in
    which one factor, equal to the correct answer up to case, is replaced by
    the blank, and it differs from that sentence. *)
Theorem questions_blank_the_answer (fuel : nat) (text : str) (k : Z)
    (t : Random.tape) (mcqs : list MCQ) (t' : Random.tape) :
  generate_mcqs_from_text fuel text k t = Return (mcqs, t') →
  Forall (blanks_answer (eligible text)) mcqs.
Proof.
  apply generate_each. intros s a ds t0 i Hs Ha _ Hq _ Hi.
  destruct (build_question_token s a Ha) as (pre & w & post & Hdec & Hlow & Hbq).
  exists s, a, pre, w, post. simpl. split_and!; done.
Qed.

Lemma questions_blank_the_answer_witness :
  Forall (blanks_answer (eligible sample_text)) sample_mcqs.
Proof. exact (questions_blank_the_answer _ _ _ _ _ _ sample_run). Defined.





(** The [while] loop with enough fuel for [k] distractors does not depend
    on the fuel. *)
Lemma synthesize_enough fuel1 fuel2 answer k d seen :
  k - length d ≤ fuel1 → k - length d ≤ fuel2 →
  synthesize fuel1 answer k d seen = synthesize fuel2 answer k d seen.
Proof.
  revert fuel2 d seen. induction fuel1 as [|fuel1 IH]; intros fuel2 d seen H1 H2.
  - destruct fuel2; simpl; rewrite !bool_decide_eq_false_2 by lia; done.
  - destruct (decide (length d < k)) as [Hlt|Hge].
    + destruct fuel2 as [|fuel2]; [lia|]. simpl.
      rewrite !bool_decide_eq_true_2 by done.
      case_bool_decide as Hfresh.
      * apply IH; rewrite length_app; simpl; lia.
      * rewrite !synthesize_stuck by done. done.
    + destruct fuel2; simpl; rewrite !bool_decide_eq_false_2 by done; done.
Qed.

Lemma build_distractors_enough fuel answer vocabulary :
  3 ≤ fuel →
  _build_distractors fuel answer vocabulary 3 = _build_distractors 3 answer vocabulary 3.
Proof.
  intros Hfuel. unfold _build_distractors.
  destruct (scan_vocabulary 3 vocabulary [] {[lower answer]}) as [d seen].
  rewrite (synthesize_enough fuel 3); [done|lia|lia].
Qed.

Lemma mcq_loop_enough fuel vocab k sentences mcqs used t :
  3 ≤ fuel →
  mcq_loop fuel vocab k sentences mcqs used t
  = mcq_loop 3 vocab k sentences mcqs used t.
Proof.
  intros Hfuel. revert mcqs used t.
  induction sentences as [|s rest IH]; intros mcqs used t; [done|].
  rewrite !mcq_loop_cons.
  destruct (decide (k ≤ Z.of_nat (length mcqs))%Z); [done|].
  unfold bind at 1 5.
  destruct (_select_answer_word s used t) as [[[a|] t1]| |]; [|apply IH|done|done].
  destruct (truthy a); [|apply IH]. cbv zeta.
  destruct (decide (_build_question s a = s)); [apply IH|].
  rewrite (build_distractors_enough fuel) by done.
  unfold bind at 1 4.
  destruct (run_distractors (_build_distractors 3 a vocab 3) t1) as [[ds t2]| |];
    [|done|done].
  unfold bind at 1 3.
  destruct (shuffle (ds ++ [a]) t2) as [[opts t3]| |]; [|done|done].
  unfold bind.
  destruct (index a opts t3) as [[i t4]| |]; [|done|done].
  apply IH.
Qed.

(** X20. The [while] loop of [_build_distractors] ends within three
    iterations or not at all: with at least three units of fuel neither
    [_build_distractors] nor [generate_mcqs_from_text] depends on the fuel. *)
Theorem three_iterations_or_never (fuel : nat) (answer : str)
    (vocabulary : list str) (text : str) (k : Z) (t : Random.tape) :
  3 ≤ fuel →
  _build_distractors fuel answer vocabulary 3
  = _build_distractors 3 answer vocabulary 3
  ∧ generate_mcqs_from_text fuel text k t = generate_mcqs_from_text 3 text k t.
Proof.
  intros Hfuel. split; [by apply build_distractors_enough|].
  unfold generate_mcqs_from_text.
  destruct (eligible (normalize_whitespace text)); [done|].
  by apply mcq_loop_enough.
Qed.

Lemma three_iterations_or_never_witness :
  _build_distractors 100 (lit "Cats") [lit "cat2"] 3
  = _build_distractors 3 (lit "Cats") [lit "cat2"] 3
  ∧ generate_mcqs_from_text 100 sample_text 5 sample_tape
    = generate_mcqs_from_text 3 sample_text 5 sample_tape.
Proof. apply three_iterations_or_never. lia. Defined.

Lemma lower_char_underscore c : lower_char c = "_"%char → c = "_"%char.
Proof. destruct c as [[] [] [] [] [] [] [] []]; vm_compute; congruence. Qed.

Lemma lower_blank a : lower a = BLANK → a = BLANK.
Proof.
  unfold BLANK, lit. simpl.
  destruct a as [|c1 [|c2 [|c3 [|c4 [|c5 a]]]]]; try done.
  simpl. intros [= H1 H2 H3 H4].
  by rewrite (lower_char_underscore _ H1), (lower_char_underscore _ H2),
    (lower_char_underscore _ H3), (lower_char_underscore _ H4).
Qed.

(** A loop that adds no question found no usable word. *)
Lemma mcq_loop_nothing fuel vocab k sentences mcqs t t' :
  (Z.of_nat (length mcqs) < k)%Z →
  mcq_loop fuel vocab k sentences mcqs ∅ t = Return (mcqs, t') →
  ∀ s, s ∈ sentences →
       (∀ a, a ∈ findall_word s → ¬ content_word a) ∨ BLANK ∈ findall_word s.
Proof.
  intros Hk. revert t. induction sentences as [|s rest IH]; intros t H s0 Hs0.
  { by apply elem_of_nil in Hs0. }
  rewrite mcq_loop_cons in H. rewrite decide_False in H by lia.
  apply bind_Return in H as (ans & t1 & Hsel & H).
  assert (Hrest : mcq_loop fuel vocab k rest mcqs ∅ t1 = Return (mcqs, t') →
                  (∀ a, a ∈ findall_word s → ¬ content_word a)
                  ∨ BLANK ∈ findall_word s →
                  (∀ a, a ∈ findall_word s0 → ¬ content_word a)
                  ∨ BLANK ∈ findall_word s0).
  { intros Hr Hs. apply elem_of_cons in Hs0 as [->|Hs0]; [exact Hs|].
    by eapply IH. }
  destruct ans as [a|].
  - pose proof (select_answer_word_spec _ _ _ _ _ Hsel) as (Ha & Hlen & Hstop & _).
    destruct (truthy a) eqn:Htr; [|destruct a; simpl in *; [lia|done]].
    cbv zeta in H.
    destruct (decide (_build_question s a = s)) as [Hq|Hq].
    + apply Hrest; [exact H|]. right.
      destruct (build_question_token s a Ha) as (pre & m & post & Hs & Hlow & Hbq).
      rewrite Hbq in Hq. rewrite Hs in Hq, Ha.
      apply app_inv_head, app_inv_tail in Hq.
      rewrite <- Hq in Hlow. symmetry in Hlow. apply lower_blank in Hlow.
      rewrite Hs. by rewrite <- Hlow.
    + exfalso.
      apply bind_Return in H as (ds & t2 & _ & H).
      apply bind_Return in H as (opts & t3 & _ & H).
      apply bind_Return in H as (i & t4 & _ & H).
      apply mcq_loop_spec in H as (new & Hnew & _).
      apply (f_equal length) in Hnew. rewrite !length_app in Hnew. simpl in Hnew. lia.
  - apply Hrest; [exact H|]. left. intros a Ha [Hlen Hstop].
    unfold _select_answer_word in Hsel.
    destruct (filter _ (findall_word s)) as [|c cs] eqn:Hf.
    + assert (Hin : a ∈ filter (λ t, candidate ∅ t = true) (findall_word s)).
      { apply list_elem_of_filter. split; [|exact Ha]. unfold candidate.
        rewrite !andb_true_iff, !bool_decide_eq_true. split_and!; [lia|done|].
        apply not_elem_of_empty. }
      rewrite Hf in Hin. by apply elem_of_nil in Hin.
    + destruct (choice_spec (c :: cs) t) as (x & tx & Hch & _); [done|].
      unfold bind in Hsel. rewrite Hch in Hsel. done.
Qed.

(** X21. When the generator returns no question although at least one was
    asked for, no eligible sentence offered a usable word: each of them has
    no content word at all or holds the token [____], whose question would
    be the sentence itself. *)
Theorem empty_quiz_has_no_material (fuel : nat) (text : str) (k : Z)
    (t t' : Random.tape) :
  (1 ≤ k)%Z →
  generate_mcqs_from_text fuel text k t = Return ([], t') →
  ∀ s, s ∈ eligible text →
       (∀ a, a ∈ findall_word s → ¬ content_word a) ∨ BLANK ∈ findall_word s.
Proof.
  intros Hk. unfold generate_mcqs_from_text. rewrite eligible_normalize.
  destruct (eligible text) as [|s ss] eqn:He.
  - intros _ s Hs. by apply elem_of_nil in Hs.
  - apply mcq_loop_nothing. simpl. lia.
Qed.

Lemma empty_quiz_has_no_material_witness :
  generate_mcqs_from_text 3 (lit "It is as it was. He was in it at the end of it.")
    5 sample_tape = Return ([], sample_tape)
  ∧ ((∀ a, a ∈ findall_word (lit "It is as it was.") → ¬ content_word a)
     ∨ BLANK ∈ findall_word (lit "It is as it was.")).
Proof.
  split; [by vm_compute|].
  apply (empty_quiz_has_no_material 3
           (lit "It is as it was. He was in it at the end of it.") 5
           sample_tape sample_tape); [lia|by vm_compute|].
  refine (bool_decide_unpack _ _). by vm_compute.
Defined.

Lemma runs_app_sep P l c r :
  P c = false → runs P (l ++ c :: r) = runs P l ++ runs P r.
Proof.
  intros Hc. induction l as [|x l IH].
  - simpl. by rewrite Hc.
  - change ((x :: l) ++ c :: r) with (x :: (l ++ c :: r)).
    rewrite (runs_cons P x (l ++ c :: r)), (runs_cons P x l).
    destruct (P x) eqn:Hx; [|exact IH].
    destruct l as [|y l].
    + change ([] ++ c :: r) with (c :: r). cbv iota beta.
      by rewrite Hc, runs_skip.
    + change ((y :: l) ++ c :: r) with (y :: (l ++ c :: r)) in *.
      rewrite IH. destruct (P y) eqn:Hy; [|done].
      pose proof (runs_head_nonnil P y l Hy) as Hne.
      by destruct (runs P (y :: l)).
Qed.

Lemma split_ws_join_newline pages :
  split_ws (join [newline] pages) = concat (split_ws <$> pages).
Proof.
  induction pages as [|p pages IH]; [done|].
  destruct pages as [|q pages].
  - simpl. by rewrite app_nil_r.
  - rewrite join_cons. unfold split_ws in *.
    change ([newline] ++ join [newline] (q :: pages))
      with (newline :: join [newline] (q :: pages)).
    rewrite runs_app_sep by done. by rewrite IH.
Qed.

(** X22. The summary of a PDF file depends on the words of its pages only:
    page breaks separate words like any other whitespace, so that two files
    whose pages hold the same words in the same order have the same summary,
    whatever the pagination. *)
Theorem pdf_summary_depends_on_words (pages pages' : list str) (path length : str) :
  lower (snd (splitext path)) = lit ".pdf" →
  concat (split_ws <$> pages) = concat (split_ws <$> pages') →
  summarize_file (pdf_world pages) path length
  = summarize_file (pdf_world pages') path length.
Proof.
  intros Hext Hwords. unfold summarize_file.
  destruct (SUMMARY_SENTENCE_MAP !! length) as [n|]; [|done].
  unfold load_text_from_path. rewrite Hext.
  rewrite decide_False by done. rewrite decide_True by done.
  unfold read_pdf_file. simpl. f_equal. f_equal.
  change (lit (String "010"%char EmptyString)) with [newline].
  unfold summarize_text.
  by rewrite !normalize_whitespace_words, !split_ws_join_newline, Hwords.
Qed.

Lemma pdf_summary_depends_on_words_witness :
  summarize_file (pdf_world [lit "Cats purr. Dogs"; lit "bark."]) (lit "pets.pdf")
    (lit "short")
  = summarize_file (pdf_world [lit "Cats purr."; []; lit " Dogs bark."])
      (lit "pets.pdf") (lit "short").
Proof. apply pdf_summary_depends_on_words; by vm_compute. Defined.

Lemma select_top_sorted freqs ss n :
  StronglySorted by_idx (select_top freqs ss n).
Proof.
  eapply StronglySorted_sublist; [apply select_top_sublist|apply score_from_sorted].
Qed.

(** A larger bound selects a larger set of scored sentences. *)
Lemma select_top_mono freqs ss n m :
  (0 ≤ n ≤ m)%Z → sublist (select_top freqs ss n) (select_top freqs ss m).
Proof.
  intros Hnm. apply (sorted_sublist by_idx); try apply _;
    [apply select_top_sorted|apply select_top_sorted|].
  intros x. unfold select_top, sort_by_idx. rewrite !sort_by_perm.
  rewrite !slice_to_nonneg by lia.
  replace (Z.to_nat n) with (Z.to_nat n `min` Z.to_nat m) by lia.
  rewrite <- take_take. apply sublist_subseteq, sublist_take.
Qed.

(** X23. A summary with a smaller bound is part of the summary with a
    larger one: the sentences of the first are sentences of the second, in
    the same order, so that every sentence of the short summary of a file is
    in its medium summary and every sentence of that one in the long one. *)
Theorem shorter_summary_within_longer (text : str) (n m : Z) :
  (0 ≤ n ≤ m)%Z →
  sublist (split_sentences (summarize_text text n))
          (split_sentences (summarize_text text m)).
Proof.
  intros Hnm.
  assert (Hsel : ∃ sel sel',
    summarize_text text n = unwords sel ∧ summarize_text text m = unwords sel'
    ∧ sublist sel sel' ∧ sublist sel' (split_sentences text)).
  { rewrite !summarize_text_unfold. cbv zeta.
    destruct (split_sentences text) as [|s ss] eqn:Hss.
    { by exists [], []. }
    rewrite <- Hss. clear s ss Hss. set (ss := split_sentences text).
    set (freqs := _build_word_frequencies ss).
    assert (Htop : ∀ k, sublist (sentence <$> select_top freqs ss k) ss).
    { intros k. pose proof (fmap_sublist sentence _ _
        (select_top_sublist freqs ss k)) as H.
      by rewrite score_from_sentences in H. }
    destruct (decide (Z.of_nat (length ss) ≤ n)%Z) as [Hn|Hn].
    { rewrite decide_True by lia. by exists ss, ss. }
    destruct (decide (Z.of_nat (length ss) ≤ m)%Z) as [Hm|Hm].
    { destruct (decide (freqs = ∅)).
      - exists (slice_to n ss), ss. split_and!; [done|done| |done].
        destruct (slice_to_take n ss) as [k ->]. apply sublist_take.
      - exists (sentence <$> select_top freqs ss n), ss. by split_and!. }
    destruct (decide (freqs = ∅)).
    - exists (slice_to n ss), (slice_to m ss). split_and!; [done|done| |].
      + rewrite !slice_to_nonneg by lia.
        replace (Z.to_nat n) with (Z.to_nat n `min` Z.to_nat m) by lia.
        rewrite <- take_take. apply sublist_take.
      + rewrite slice_to_nonneg by lia. apply sublist_take.
    - exists (sentence <$> select_top freqs ss n),
        (sentence <$> select_top freqs ss m). split_and!; [done|done| |done].
      by apply fmap_sublist, select_top_mono. }
  destruct Hsel as (sel & sel' & -> & -> & Hsub & Hsub').
  pose proof (split_sentences_rejoin text sel' Hsub') as Hre'.
  pose proof (split_sentences_rejoin text sel (transitivity Hsub Hsub')) as Hre.
  by rewrite Hre, Hre'.
Qed.

Lemma shorter_summary_within_longer_witness :
  sublist (split_sentences (summarize_text sample_text 1))
          (split_sentences (summarize_text sample_text 2)).
Proof. apply shorter_summary_within_longer. lia. Defined.
